(** * SSDP discovery of a UPnP gateway: [aioupnp/protocols/ssdp.py]

    A shallow embedding of the protocol engine ([class SSDPProtocol]), of the
    single search [m_search] and of the fuzzy discovery [fuzzy_m_search],
    together with the part of asyncio they rely on: futures, [call_later]
    handles and the suspension at [await].

    The event loop is explicit state.  Objects that Python compares by
    identity (futures, handles, transports) are numbered, and the number is
    their position in the store that holds them. *)

From Stdlib Require Import QArith.
From stdpp Require Import base list strings pretty.


(** ** Data *)

Definition bytes := list Byte.byte.

(** A search parameter set is an [OrderedDict] of header names and values. *)
Definition OrderedDict := list (string * string).

Inductive PacketType := _M_SEARCH | _NOTIFY | _OK.

(** The attributes of [SSDPDatagram] the engine reads: [_packet_type] and
    [st]; the remaining headers are carried along untouched. *)
Record SSDPDatagram := mkDatagram {
  _packet_type : PacketType;
  st : option string;
  headers : OrderedDict
}.

#[global] Instance PacketType_eq_dec : EqDecision PacketType.
Proof. solve_decision. Defined.

#[global] Instance SSDPDatagram_eq_dec : EqDecision SSDPDatagram.
Proof. solve_decision. Defined.

(** The codec of [aioupnp.serialization.ssdp] is a collaborator of this
    file: the constructor [SSDPDatagram(kind, args)], [packet.encode().encode()]
    and [SSDPDatagram.decode], which raises [UPnPError] on bytes it cannot
    parse ([None] here). *)
Record Codec := mkCodec {
  construct : PacketType -> OrderedDict -> SSDPDatagram;
  encode : SSDPDatagram -> bytes;
  decode : bytes -> option SSDPDatagram
}.

(** [asyncio.Future]: its [_state] is one of PENDING, CANCELLED, FINISHED, and
    a finished future holds its result. *)
Inductive Future := PENDING | CANCELLED | FINISHED (result : SSDPDatagram).

#[global] Instance Future_eq_dec : EqDecision Future.
Proof. solve_decision. Defined.

Definition resolved (f : Future) : bool :=
  match f with PENDING => false | _ => true end.

(** [asyncio.Handle] as returned by [call_later (delay, fut.cancel)]: the
    future whose [cancel] it will call, the delay, and whether it was
    cancelled or has already run. *)
Record Handle := mkHandle {
  h_delay : Q;
  h_future : nat;
  h_cancelled : bool;
  h_ran : bool
}.

Definition live (h : Handle) : bool := negb (h_cancelled h) && negb (h_ran h).

(** An element of [_pending_searches]:
    [Tuple[str, str, Future, asyncio.Handle]]. *)
Definition PendingSearch : Type := string * string * nat * nat.

Definition ps_address (t : PendingSearch) : string := t.1.1.1.
Definition ps_st (t : PendingSearch) : string := t.1.1.2.
Definition ps_future (t : PendingSearch) : nat := t.1.2.
Definition ps_handle (t : PendingSearch) : nat := t.2.
Arguments ps_address : simpl never.
Arguments ps_st : simpl never.
Arguments ps_future : simpl never.
Arguments ps_handle : simpl never.

(** ** Futures and handles *)

Abbreviation Futures := (list Future).
Abbreviation Timers := (list Handle).

(** [f.done()] *)
Definition future_done (fs : Futures) (f : nat) : bool :=
  match fs !! f with Some s => resolved s | None => false end.

(** [f.set_result(packet)]; the engine calls it on pending futures only. *)
Definition set_result (f : nat) (packet : SSDPDatagram) (fs : Futures) : Futures :=
  <[f := FINISHED packet]> fs.

(** [fut.cancel()]: nothing happens unless the future is pending. *)
Definition cancel (f : nat) (fs : Futures) : Futures :=
  if future_done fs f then fs else <[f := CANCELLED]> fs.

(** [h.cancel()] *)
Definition Handle_cancel (h : nat) (ts : Timers) : Timers :=
  match ts !! h with
  | Some hd => <[h := mkHandle (h_delay hd) (h_future hd) true (h_ran hd)]> ts
  | None => ts
  end.

(** ** Exceptions and outcomes *)

Inductive Exn :=
| AssertionError
| CancelledError
| TimeoutError
| ZeroDivisionError
| OSError (msg : string)
| UPnPError (msg : string)
| UPnPError_of (err : Exn).

#[global] Instance Exn_eq_dec : EqDecision Exn.
Proof. solve_decision. Defined.

(** What a coroutine does in the end: it returns, it raises, or it stays
    suspended for ever at an [await] nothing will resume. *)
Inductive Outcome (A : Type) :=
| Return (a : A)
| Raise (e : Exn)
| Suspended.
Arguments Return {A} a.
Arguments Raise {A} e.
Arguments Suspended {A}.

(** ** The world: event loop, endpoints and environment *)

(** A transport and the protocol instance bound to it, as created by
    [create_datagram_endpoint]; both are known by the position of this record
    in [endpoints].  [closes] counts the calls of [transport.close()] and
    [sent] lists the calls of [transport.sendto]. *)
Record Endpoint := mkEndpoint {
  multicast_address : string;
  lan_address : string;
  sock : option nat;
  group : option (string * string);
  ttl : option Z;
  _pending_searches : list PendingSearch;
  sent : list (bytes * (string * Z));
  closes : nat
}.

(** What a call of [listen_ssdp] runs into. *)
Inductive Setup :=
| SetupOk
| EndpointFails (err : Exn)
| JoinFails (err : Exn).

(** What the loop runs while a coroutine is suspended: a datagram handed to
    the protocol of a transport, or a [call_later] handle coming due. *)
Inductive LoopEvent :=
| Datagram (transport : nat) (data : bytes) (addr : string * Z)
| Timer (h : nat).

Record World := mkWorld {
  futures : Futures;
  timers : Timers;
  endpoints : list Endpoint;
  setups : list Setup;
  arrivals : list (list LoopEvent)
}.

Definition with_futures (fs : Futures) (w : World) : World :=
  mkWorld fs (timers w) (endpoints w) (setups w) (arrivals w).
Definition with_timers (ts : Timers) (w : World) : World :=
  mkWorld (futures w) ts (endpoints w) (setups w) (arrivals w).
Definition with_endpoints (es : list Endpoint) (w : World) : World :=
  mkWorld (futures w) (timers w) es (setups w) (arrivals w).
Definition with_setups (ss : list Setup) (w : World) : World :=
  mkWorld (futures w) (timers w) (endpoints w) ss (arrivals w).
Definition with_arrivals (a : list (list LoopEvent)) (w : World) : World :=
  mkWorld (futures w) (timers w) (endpoints w) (setups w) a.

Definition with_pending (ps : list PendingSearch) (e : Endpoint) : Endpoint :=
  mkEndpoint (multicast_address e) (lan_address e) (sock e) (group e) (ttl e)
             ps (sent e) (closes e).
Definition with_sent (s : list (bytes * (string * Z))) (e : Endpoint) : Endpoint :=
  mkEndpoint (multicast_address e) (lan_address e) (sock e) (group e) (ttl e)
             (_pending_searches e) s (closes e).
Definition with_closes (n : nat) (e : Endpoint) : Endpoint :=
  mkEndpoint (multicast_address e) (lan_address e) (sock e) (group e) (ttl e)
             (_pending_searches e) (sent e) n.

(** ** Coroutines as state and exception passing *)

Definition M (A : Type) : Type := World -> Outcome A * World.

Definition ret {A} (a : A) : M A := fun w => (Return a, w).
Definition raise {A} (e : Exn) : M A := fun w => (Raise e, w).
Definition bind {A B} (m : M A) (k : A -> M B) : M B :=
  fun w =>
    match m w with
    | (Return a, w') => k a w'
    | (Raise e, w') => (Raise e, w')
    | (Suspended, w') => (Suspended, w')
    end.

Notation "x <- m ;; k" := (bind m (fun x => k))
  (at level 100, m at next level, right associativity).
Notation "m ;;; k" := (bind m (fun _ => k))
  (at level 100, right associativity).

(** [try: body except ...: handler]: [handler e] is [None] for the
    exceptions the clause does not name. *)
Definition try_except {A} (body : M A) (handler : Exn -> option (M A)) : M A :=
  fun w =>
    match body w with
    | (Raise e, w') =>
        match handler e with
        | Some k => k w'
        | None => (Raise e, w')
        end
    | r => r
    end.

(** [try: body finally: final]; a coroutine that never resumes never reaches
    its [finally]. *)
Definition try_finally {A} (body : M A) (final : M unit) : M A :=
  fun w =>
    match body w with
    | (Suspended, w') => (Suspended, w')
    | (r, w') =>
        match final w' with
        | (Return _, w'') => (r, w'')
        | (Raise e, w'') => (Raise e, w'')
        | (Suspended, w'') => (Suspended, w'')
        end
    end.

(** Modelled from the spec: the constant [SSDP_IP_ADDRESS] of
    [aioupnp.constants], which the file imports: the multicast group
    239.255.255.250. *)
Definition SSDP_IP_ADDRESS : string := "239.255.255.250".

(** Modelled from the spec: the constant [SSDP_PORT] of [aioupnp.constants],
    which the file imports: the well-known SSDP port 1900. *)
Definition SSDP_PORT : Z := 1900.

(** ** The protocol engine: [class SSDPProtocol] *)

Module SSDPProtocol.
Section Engine.

Context (codec : Codec).

(** The local variables of [_callback_m_search_ok] and the objects it
    mutates. *)
Record Pass := mkPass {
  tmp : list PendingSearch;
  set_futures : list nat;
  p_futures : Futures;
  p_timers : Timers
}.

(** [(address == a) and (s in [packet.st, "upnp:rootdevice"])] *)
Definition matches (address : string) (packet : SSDPDatagram)
    (t : PendingSearch) : bool :=
  bool_decide (address = ps_address t)
  && (bool_decide (Some (ps_st t) = st packet)
      || bool_decide (ps_st t = "upnp:rootdevice")).

(** The body of the first [while] loop for the popped tuple [t]. *)
Definition visit (address : string) (packet : SSDPDatagram)
    (t : PendingSearch) (p : Pass) : Pass :=
  if matches address packet t then
    let f := ps_future t in
    let h := ps_handle t in
    let ts := Handle_cancel h (p_timers p) in
    if bool_decide (f ∉ set_futures p) then
      mkPass (tmp p) (set_futures p ++ [f])
             (if negb (future_done (p_futures p) f)
              then set_result f packet (p_futures p) else p_futures p)
             ts
    else mkPass (tmp p) (set_futures p) (p_futures p) ts
  else if bool_decide (ps_future t ∉ set_futures p) then
    mkPass (tmp p ++ [t]) (set_futures p) (p_futures p) (p_timers p)
  else p.

(** [while self._pending_searches: t = self._pending_searches.pop() ...]:
    [pop] takes the last element, so the list is consumed from its end;
    [stack] is the list seen from that end. *)
Fixpoint drain (address : string) (packet : SSDPDatagram)
    (stack : list PendingSearch) (p : Pass) : Pass :=
  match stack with
  | [] => p
  | t :: stack' => drain address packet stack' (visit address packet t p)
  end.

(** [while tmp: self._pending_searches.append(tmp.pop())] *)
Fixpoint refill (stack : list PendingSearch) (pending : list PendingSearch)
    : list PendingSearch :=
  match stack with
  | [] => pending
  | t :: stack' => refill stack' (pending ++ [t])
  end.

(** The method on the registry and the two stores it touches. *)
Definition match_pass (address : string) (packet : SSDPDatagram)
    (pending : list PendingSearch) (fs : Futures) (ts : Timers)
    : list PendingSearch * Futures * Timers :=
  let p := drain address packet (rev pending) (mkPass [] [] fs ts) in
  (refill (rev (tmp p)) [], p_futures p, p_timers p).

(** The method on the protocol instance [self]. *)
Definition _callback_m_search_ok (self : nat) (address : string)
    (packet : SSDPDatagram) (w : World) : World :=
  match endpoints w !! self with
  | None => w
  | Some e =>
      let '(pending, fs, ts) :=
        match_pass address packet (_pending_searches e) (futures w) (timers w) in
      with_endpoints (<[self := with_pending pending e]> (endpoints w))
        (with_timers ts (with_futures fs w))
  end.

Definition datagram_received (self : nat) (data : bytes) (addr : string * Z)
    (w : World) : World :=
  match endpoints w !! self with
  | None => w
  | Some e =>
      if bool_decide (addr.1 = lan_address e) then w
      else
        match decode codec data with
        | None => w
        | Some packet =>
            if bool_decide (_packet_type packet = _OK)
            then _callback_m_search_ok self addr.1 packet w
            else w
        end
  end.

(** *** The loop, as far as the engine meets it *)

(** A handle that comes due runs its callback [fut.cancel] once, unless it
    was cancelled. *)
Definition run_timer (h : nat) (w : World) : World :=
  match timers w !! h with
  | Some hd =>
      if live hd then
        with_futures (cancel (h_future hd) (futures w))
          (with_timers
             (<[h := mkHandle (h_delay hd) (h_future hd) (h_cancelled hd) true]>
                (timers w)) w)
      else w
  | None => w
  end.

(** A transport delivers to its protocol until it is closed. *)
Definition run_event (ev : LoopEvent) (w : World) : World :=
  match ev with
  | Datagram tr data addr =>
      match endpoints w !! tr with
      | Some e =>
          if bool_decide (closes e = 0) then datagram_received tr data addr w
          else w
      | None => w
      end
  | Timer h => run_timer h w
  end.

(** Time passing with nothing arriving: every handle still scheduled comes
    due, in the order in which it was scheduled. *)
Definition run_timers (w : World) : World :=
  foldl (fun w h => run_timer h w) w (seq 0 (List.length (timers w))).

(** What [await fut] gives once [fut] is resolved. *)
Definition result (fs : Futures) (fut : nat) : option (Outcome SSDPDatagram) :=
  match fs !! fut with
  | Some (FINISHED packet) => Some (Return packet)
  | Some CANCELLED => Some (Raise CancelledError)
  | _ => None
  end.

(** The coroutine is suspended while the loop runs [events]; it resumes as
    soon as [fut] is resolved.  When nothing more arrives, the scheduled
    handles come due; a future that no handle cancels is awaited for ever. *)
Fixpoint suspend (fut : nat) (events : list LoopEvent) (w : World)
    : Outcome SSDPDatagram * World :=
  match result (futures w) fut with
  | Some r => (r, w)
  | None =>
      match events with
      | ev :: events' => suspend fut events' (run_event ev w)
      | [] =>
          let w' := run_timers w in
          match result (futures w') fut with
          | Some r => (r, w')
          | None => (Suspended, w')
          end
      end
  end.

(** [await fut]; the environment says what the loop meets meanwhile. *)
Definition await (fut : nat) : M SSDPDatagram :=
  fun w =>
    match arrivals w with
    | events :: later => suspend fut events (with_arrivals later w)
    | [] => suspend fut [] w
    end.

(** [Future()] *)
Definition new_future : M nat :=
  fun w => (Return (List.length (futures w)),
            with_futures (futures w ++ [PENDING]) w).

(** [asyncio.get_running_loop().call_later(timeout, fut.cancel)] *)
Definition call_later (timeout : Q) (fut : nat) : M nat :=
  fun w =>
    (Return (List.length (timers w)),
     with_timers (timers w ++ [mkHandle timeout fut false false]) w).

(** [self._pending_searches.append(t)] *)
Definition append_pending (self : nat) (t : PendingSearch) : M unit :=
  fun w =>
    (Return (),
     with_endpoints
       (alter (fun e => with_pending (_pending_searches e ++ [t]) e) self
          (endpoints w)) w).

(** [self.transport.sendto(data, addr)] *)
Definition sendto (self : nat) (data : bytes) (addr : string * Z) : M unit :=
  fun w =>
    (Return (),
     with_endpoints
       (alter (fun e => with_sent (sent e ++ [(data, addr)]) e) self
          (endpoints w)) w).

Fixpoint send_many_m_searches (self : nat) (address : string)
    (packets : list SSDPDatagram) : M unit :=
  match packets with
  | [] => ret ()
  | packet :: packets' =>
      sendto self (encode codec packet) (address, SSDP_PORT) ;;;
      send_many_m_searches self address packets'
  end.

(** The [for datagram in datagrams] loop of [m_search]. *)
Fixpoint register (self : nat) (address : string) (timeout : Q) (fut : nat)
    (datagrams : list OrderedDict) (packets : list SSDPDatagram)
    : M (list SSDPDatagram) :=
  match datagrams with
  | [] => ret packets
  | datagram :: datagrams' =>
      let packet := construct codec _M_SEARCH datagram in
      match st packet with
      | None => raise AssertionError
      | Some s =>
          h <- call_later timeout fut ;;
          append_pending self (address, s, fut, h) ;;;
          register self address timeout fut datagrams' (packets ++ [packet])
      end
  end.

Definition m_search (self : nat) (address : string) (timeout : Q)
    (datagrams : list OrderedDict) : M SSDPDatagram :=
  fut <- new_future ;;
  packets <- register self address timeout fut datagrams [] ;;
  send_many_m_searches self address packets ;;;
  await fut.

End Engine.
End SSDPProtocol.

(** ** Module-level coroutines *)

Section Discovery.

Context (codec : Codec).

(** [list(packet_generator())]: the candidate parameter sets of
    [aioupnp.protocols.m_search_patterns], in the order it yields them. *)
Context (packet_generator : list OrderedDict).

(** [transport.close()] *)
Definition close (transport : nat) : M unit :=
  fun w =>
    (Return (),
     with_endpoints
       (alter (fun e => with_closes (S (closes e)) e) transport (endpoints w)) w).

(** The environment's answer to this call of [listen_ssdp]. *)
Definition next_setup (w : World) : Setup * World :=
  match setups w with
  | s :: later => (s, with_setups later w)
  | [] => (SetupOk, w)
  end.

(** [create_datagram_endpoint(lambda: SSDPProtocol(SSDP_IP_ADDRESS, lan_address), sock=sock)] *)
Definition create_datagram_endpoint (lan_address : string)
    (ssdp_socket : option nat) : M nat :=
  fun w =>
    (Return (List.length (endpoints w)),
     with_endpoints
       (endpoints w ++
          [mkEndpoint SSDP_IP_ADDRESS lan_address ssdp_socket None None [] [] 0])
       w).

(** [protocol.join_group(...)] and [protocol.set_ttl(1)] of the base class
    [MulticastProtocol], when they succeed. *)
Definition join_group_set_ttl (protocol : nat) : M unit :=
  fun w =>
    (Return (),
     with_endpoints
       (alter (fun e =>
                 mkEndpoint (multicast_address e) (lan_address e) (sock e)
                   (Some (multicast_address e, lan_address e)) (Some 1%Z)
                   (_pending_searches e) (sent e) (closes e))
              protocol (endpoints w)) w).

Definition listen_ssdp (lan_address gateway_address : string)
    (ssdp_socket : option nat) : M (nat * nat * string * string) :=
  fun w =>
    let (setup, w) := next_setup w in
    match setup with
    | EndpointFails err => (Raise (UPnPError_of err), w)
    | JoinFails err =>
        (transport <- create_datagram_endpoint lan_address ssdp_socket ;;
         close transport ;;;
         raise (UPnPError_of err)) w
    | SetupOk =>
        (transport <- create_datagram_endpoint lan_address ssdp_socket ;;
         join_group_set_ttl transport ;;;
         ret (transport, transport, gateway_address, lan_address)) w
    end.

(** ["M-SEARCH for {}:{} timed out".format(gateway_address, SSDP_PORT)] *)
Definition timed_out (gateway_address : string) : string :=
  "M-SEARCH for " +:+ gateway_address +:+ ":" +:+ pretty SSDP_PORT
  +:+ " timed out".

Definition m_search (lan_address gateway_address : string)
    (datagram_args : OrderedDict) (timeout : Q) (ssdp_socket : option nat)
    : M SSDPDatagram :=
  r <- listen_ssdp lan_address gateway_address ssdp_socket ;;
  let '(transport, protocol, gateway_address, lan_address) := r in
  try_finally
    (try_except
       (SSDPProtocol.m_search codec protocol gateway_address timeout
          [datagram_args])
       (fun e =>
          match e with
          | TimeoutError | CancelledError =>
              Some (raise (UPnPError (timed_out gateway_address)))
          | _ => None
          end))
    (close transport).

Definition batch_size : nat := 2.

(** [float(timeout) / float(len(packet_args))] for values the division
    gives exactly. *)
Definition batch_timeout (timeout : Q) (packet_args : list OrderedDict) : Q :=
  (timeout / inject_Z (Z.of_nat (List.length packet_args)))%Q.

(** The [while packet_args] loop of [_fuzzy_m_search] and the [raise] after
    it.  Every round takes [batch_size] elements off [packet_args], so
    [len(packet_args)] rounds are enough; [rounds] counts them down. *)
Fixpoint batches (rounds : nat) (protocol : nat) (gateway_address : string)
    (batch_timeout : Q) (packet_args : list OrderedDict)
    : M (list OrderedDict) :=
  match packet_args with
  | [] => raise (UPnPError (timed_out gateway_address))
  | _ :: _ =>
      match rounds with
      | O => fun w => (Suspended, w)
      | S rounds' =>
          let args := take batch_size packet_args in
          let packet_args := drop batch_size packet_args in
          try_except
            (SSDPProtocol.m_search codec protocol gateway_address
               batch_timeout args ;;;
             ret args)
            (fun e =>
               match e with
               | TimeoutError | CancelledError =>
                   Some (batches rounds' protocol gateway_address
                           batch_timeout packet_args)
               | _ => None
               end)
      end
  end.

Definition _fuzzy_m_search (lan_address gateway_address : string)
    (timeout : Q) (ssdp_socket : option nat) : M (list OrderedDict) :=
  r <- listen_ssdp lan_address gateway_address ssdp_socket ;;
  let '(transport, protocol, gateway_address, lan_address) := r in
  let packet_args := packet_generator in
  if bool_decide (List.length packet_args = 0)
  then raise ZeroDivisionError
  else
    batches (List.length packet_args) protocol gateway_address
      (batch_timeout timeout packet_args) packet_args.

(** The [for args in args_to_try] loop of [fuzzy_m_search] and the [raise]
    after it. *)
Fixpoint try_each (lan_address gateway_address : string)
    (args_to_try : list OrderedDict) : M (OrderedDict * SSDPDatagram) :=
  match args_to_try with
  | [] => raise (UPnPError "failed to discover gateway")
  | args :: rest =>
      try_except
        (packet <- m_search lan_address gateway_address args 3 None ;;
         ret (args, packet))
        (fun e =>
           match e with
           | UPnPError _ | UPnPError_of _ =>
               Some (try_each lan_address gateway_address rest)
           | _ => None
           end)
  end.

Definition fuzzy_m_search (lan_address gateway_address : string)
    (timeout : Q) (ssdp_socket : option nat)
    : M (OrderedDict * SSDPDatagram) :=
  args_to_try <- _fuzzy_m_search lan_address gateway_address timeout
                   ssdp_socket ;;
  try_each lan_address gateway_address args_to_try.

End Discovery.

(** ** A world to start from and a toy codec for examples *)

Definition empty_world : World := mkWorld [] [] [] [] [].

(** A codec small enough to run: the search target is the value of the
    first ["ST"] header; on the wire a reply is the byte 1 followed by its
    search target, and anything else does not decode. *)
Definition toy_st (d : OrderedDict) : option string :=
  snd <$> head (filter (fun kv => kv.1 = "ST") d).

Definition toy_construct (kind : PacketType) (d : OrderedDict) : SSDPDatagram :=
  mkDatagram kind (toy_st d) d.

Definition toy_encode (packet : SSDPDatagram) : bytes :=
  match st packet with
  | Some s => String.list_byte_of_string s
  | None => []
  end.

Definition toy_decode (data : bytes) : option SSDPDatagram :=
  match data with
  | Byte.x01 :: target =>
      Some (mkDatagram _OK (Some (String.string_of_list_byte target)) [])
  | _ => None
  end.

Definition toy : Codec := mkCodec toy_construct toy_encode toy_decode.

(** A reply on the toy wire. *)
Definition reply (target : string) : bytes :=
  Byte.x01 :: String.list_byte_of_string target.

(** Worlds and values for the examples: a gateway, a few search targets,
    and a loop with one bound protocol instance whose registry, futures and
    handles are given. *)
Definition gateway : string := "192.168.1.1".
Definition lan : string := "192.168.1.2".
Definition wan_ip : string := "urn:schemas-upnp-org:service:WANIPConnection:1".
Definition wan_ppp : string := "urn:schemas-upnp-org:service:WANPPPConnection:1".
Definition rootdevice : string := "upnp:rootdevice".

Definition ok_reply (target : string) : SSDPDatagram :=
  mkDatagram _OK (Some target) [].

Definition params (target : string) : OrderedDict :=
  [("HOST", "239.255.255.250:1900"); ("ST", target)].

Definition no_target : OrderedDict := [("HOST", "239.255.255.250:1900")].

Definition timer (fut : nat) : Handle := mkHandle 1 fut false false.

Definition bound (pending : list PendingSearch) : Endpoint :=
  mkEndpoint SSDP_IP_ADDRESS lan None (Some (SSDP_IP_ADDRESS, lan)) (Some 1%Z)
    pending [] 0.

Definition engine_world (pending : list PendingSearch) (fs : Futures)
    (ts : Timers) : World :=
  mkWorld fs ts [bound pending] [] [].

Definition two_candidates : list OrderedDict := [params wan_ppp; params wan_ip].

Definition ten_candidates : list OrderedDict :=
  params <$> ["t0"; "t1"; "t2"; "t3"; "t4"; "t5"; "t6"; "t7"; "t8"; "t9"].

(** The gateway answers the first batch with the second target of
    [two_candidates], stays silent when asked for the first target alone, and
    answers when asked for the second alone. *)
Definition answering_world : World :=
  mkWorld [] [] [] []
    [[Datagram 0 (reply wan_ip) (gateway, 1900%Z)];
     [];
     [Datagram 2 (reply wan_ip) (gateway, 1900%Z)]].

(** ** Definitions used by the statements *)

(** The loop running a sequence of events. *)
Definition run_events (codec : Codec) (events : list LoopEvent) (w : World)
    : World :=
  foldl (fun w ev => SSDPProtocol.run_event codec ev w) w events.

(** The futures of the records of [pending] that a reply matches. *)
Definition matched_futures (address : string) (packet : SSDPDatagram)
    (pending : list PendingSearch) : list nat :=
  ps_future <$> filter (fun t => SSDPProtocol.matches address packet t = true) pending.

(** A record that a reply does not match and whose future is not the future
    of any record it matches. *)
Definition untouched (address : string) (packet : SSDPDatagram)
    (pending : list PendingSearch) (t : PendingSearch) : Prop :=
  SSDPProtocol.matches address packet t = false
  ∧ ps_future t ∉ matched_futures address packet pending.

#[global] Instance untouched_dec address packet pending t :
  Decision (untouched address packet pending t).
Proof. unfold untouched. apply _. Defined.

(** Objects refer to objects that exist: the handle of a pending search is
    the one scheduled for its future, every handle was scheduled for a future
    of the loop, and a handle is cancelled or has run only when its future
    is resolved. *)
Record consistent (w : World) : Prop := mkConsistent {
  pending_linked :
    forall i e t, endpoints w !! i = Some e -> t ∈ _pending_searches e ->
      exists hd, timers w !! ps_handle t = Some hd /\ h_future hd = ps_future t;
  handle_target :
    forall h hd, timers w !! h = Some hd ->
      (h_future hd < List.length (futures w))%nat;
  spent_resolved :
    forall h hd, timers w !! h = Some hd -> live hd = false ->
      future_done (futures w) (h_future hd) = true
}.

(** A parameter set from which the codec builds a request that has a
    search target. *)
Definition carries_st (codec : Codec) (datagram : OrderedDict) : Prop :=
  is_Some (st (construct codec _M_SEARCH datagram)).

#[global] Instance carries_st_dec codec datagram :
  Decision (carries_st codec datagram).
Proof. unfold carries_st. apply _. Defined.

(** The calls of [transport.sendto] so far, on every transport. *)
Definition all_sent (w : World) : list (list (bytes * (string * Z))) :=
  sent <$> endpoints w.

(** How often [transport.close()] was called on a transport. *)
Definition close_count (transport : nat) (w : World) : option nat :=
  closes <$> endpoints w !! transport.

(** Following the spec's words for the disambiguation phase: the
    candidates of the viable batch are searched for one at a time, in order,
    each with [m_search] and a timeout of 3; the first whose search succeeds
    is returned with its reply, and when none succeeds the failure is
    "failed to discover gateway". *)
Fixpoint first_success (codec : Codec) (lan_address gateway_address : string)
    (candidates : list OrderedDict) (w : World)
    : Outcome (OrderedDict * SSDPDatagram) * World :=
  match candidates with
  | [] => (Raise (UPnPError "failed to discover gateway"), w)
  | args :: rest =>
      match m_search codec lan_address gateway_address args 3 None w with
      | (Return packet, w') => (Return (args, packet), w')
      | (_, w') => first_success codec lan_address gateway_address rest w'
      end
  end.

(** Following the spec's words for the batch phase: the batches are sent
    one after the other, each awaited for [wait]; the first that is answered
    is returned, a batch that times out is dropped, and when all are
    exhausted the failure is the discovery time-out. *)
Fixpoint search_batches (codec : Codec) (protocol : nat)
    (gateway_address : string) (wait : Q) (bs : list (list OrderedDict))
    : M (list OrderedDict) :=
  match bs with
  | [] => raise (UPnPError (timed_out gateway_address))
  | b :: bs' =>
      try_except
        (SSDPProtocol.m_search codec protocol gateway_address wait b ;;;
         ret b)
        (fun e =>
           match e with
           | TimeoutError | CancelledError =>
               Some (search_batches codec protocol gateway_address wait bs')
           | _ => None
           end)
  end.

(** The datagrams [send_many_m_searches] hands to the transport for
    [packets], with their destination. *)
Definition requests (codec : Codec) (address : string)
    (packets : list SSDPDatagram) : list (bytes * (string * Z)) :=
  (fun packet => (encode codec packet, (address, SSDP_PORT))) <$> packets.

(** The search target of the request built from a parameter set that
    carries one. *)
Definition target_of (codec : Codec) (datagram : OrderedDict) : string :=
  default EmptyString (st (construct codec _M_SEARCH datagram)).

(** The records of one search: one per request, in order, all with the
    future [fut], the handles numbered from [h0]. *)
Definition records (codec : Codec) (address : string) (fut h0 : nat)
    (datagrams : list OrderedDict) : list PendingSearch :=
  imap (fun i datagram => (address, target_of codec datagram, fut, (h0 + i)%nat))
    datagrams.

(** The registry of a protocol instance and what its transport has sent. *)
Definition registry (self : nat) (w : World) : option (list PendingSearch) :=
  _pending_searches <$> endpoints w !! self.

Definition sent_on (transport : nat) (w : World)
    : option (list (bytes * (string * Z))) :=
  sent <$> endpoints w !! transport.

(** The successive values of [args] in the [while] loop of
    [_fuzzy_m_search] when every batch times out. *)
Fixpoint chunks (rounds : nat) (packet_args : list OrderedDict)
    : list (list OrderedDict) :=
  match packet_args, rounds with
  | [], _ => []
  | _ :: _, O => []
  | _ :: _, S rounds' =>
      take batch_size packet_args :: chunks rounds' (drop batch_size packet_args)
  end.

Definition batches_of (packet_args : list OrderedDict)
    : list (list OrderedDict) :=
  chunks (List.length packet_args) packet_args.

(** The world in which a search that passed the assertions awaits its
    future. *)
Definition awaiting (codec : Codec) (self : nat) (address : string) (timeout : Q)
    (datagrams : list OrderedDict) (w : World) : World :=
  with_endpoints
    (alter (fun e =>
              with_sent
                (sent e
                 ++ requests codec address (construct codec _M_SEARCH <$> datagrams))
                (with_pending
                   (_pending_searches e
                    ++ records codec address (List.length (futures w))
                         (List.length (timers w)) datagrams) e))
       self (endpoints w))
    (with_timers
       (timers w
        ++ replicate (List.length datagrams)
             (mkHandle timeout (List.length (futures w)) false false))
       (with_futures (futures w ++ [PENDING]) w)).

(** A pending future that no handle is scheduled for and no pending search
    refers to. *)
Definition unreferenced (fut : nat) (w : World) : Prop :=
  futures w !! fut = Some PENDING
  /\ (forall h hd, timers w !! h = Some hd -> h_future hd <> fut)
  /\ (forall i e t, endpoints w !! i = Some e -> t ∈ _pending_searches e ->
        ps_future t <> fut).

(** The endpoint [listen_ssdp] hands out: bound to the LAN address, joined
    to the SSDP group with a TTL of 1, with an empty registry, open. *)
Definition listening (lan_address : string) (ssdp_socket : option nat)
    : Endpoint :=
  mkEndpoint SSDP_IP_ADDRESS lan_address ssdp_socket
    (Some (SSDP_IP_ADDRESS, lan_address)) (Some 1%Z) [] [] 0.

(** The endpoint [listen_ssdp] leaves behind when joining the group fails:
    closed once. *)
Definition abandoned (lan_address : string) (ssdp_socket : option nat)
    : Endpoint :=
  mkEndpoint SSDP_IP_ADDRESS lan_address ssdp_socket None None [] [] 1.


(** ** The matching pass *)

Section PassLemmas.

Import SSDPProtocol.

Context (address : string) (packet : SSDPDatagram).

Local Abbreviation visit := (visit address packet).
Local Abbreviation matches := (matches address packet).

Lemma refill_app stack pending : refill stack pending = pending ++ stack.
Proof.
  revert pending. induction stack as [|t stack IH]; intros pending; simpl.
  - by rewrite app_nil_r.
  - by rewrite IH, <- app_assoc.
Qed.

Lemma drain_foldr pending p :
  drain address packet (rev pending) p = foldr visit p pending.
Proof.
  revert p. induction pending as [|t pending IH] using rev_ind; intros p.
  - done.
  - rewrite rev_unit, foldr_app. simpl. apply IH.
Qed.

Lemma match_pass_foldr pending fs ts :
  match_pass address packet pending fs ts =
  let p := foldr visit (mkPass [] [] fs ts) pending in
  (rev (tmp p), p_futures p, p_timers p).
Proof.
  unfold match_pass. rewrite drain_foldr. simpl.
  by rewrite refill_app.
Qed.

Lemma future_done_lookup (fs : Futures) f :
  future_done fs f = true <-> exists s, fs !! f = Some s /\ resolved s = true.
Proof.
  unfold future_done. destruct (fs !! f) as [s|]; split.
  - intros H. by exists s.
  - by intros (s' & [= <-] & H).
  - done.
  - by intros (s' & [=] & _).
Qed.

Lemma future_done_pending (fs : Futures) f :
  fs !! f = Some PENDING -> future_done fs f = false.
Proof. unfold future_done. by intros ->. Qed.

(** One visit changes a future only from pending to finished. *)
Lemma visit_future t p f :
  p_futures (visit t p) !! f = p_futures p !! f
  \/ (p_futures p !! f = Some PENDING
      /\ p_futures (visit t p) !! f = Some (FINISHED packet)
      /\ matches t = true /\ ps_future t = f).
Proof.
  unfold SSDPProtocol.visit.
  destruct (SSDPProtocol.matches _ _ t) eqn:Hm; simpl.
  - case_bool_decide as Hin; simpl; [|by left].
    destruct (future_done (p_futures p) (ps_future t)) eqn:Hd; simpl; [by left|].
    unfold set_result, future_done in *.
    destruct (decide (f = ps_future t)) as [->|Hne].
    + destruct (p_futures p !! ps_future t) as [s|] eqn:Hl.
      * destruct s; try discriminate. right. split; [done|].
        split; [|done]. apply list_lookup_insert_eq.
        by eapply lookup_lt_Some.
      * left. apply lookup_ge_None.
        rewrite length_insert. by apply lookup_ge_None.
    + left. by rewrite list_lookup_insert_ne.
  - case_bool_decide; by left.
Qed.

Lemma visit_futures_length t p :
  List.length (p_futures (visit t p)) = List.length (p_futures p).
Proof.
  unfold SSDPProtocol.visit.
  destruct (SSDPProtocol.matches _ _ t); simpl.
  - case_bool_decide; simpl; [|done].
    destruct (future_done _ _); simpl; [done|].
    unfold set_result. by rewrite length_insert.
  - by case_bool_decide.
Qed.

(** After the visit of a matching record its future is resolved, when it
    is a future of the store and those seen before are resolved. *)
Lemma visit_matching_done t p :
  matches t = true ->
  (ps_future t < List.length (p_futures p))%nat ->
  (ps_future t ∈ set_futures p ->
   future_done (p_futures p) (ps_future t) = true) ->
  future_done (p_futures (visit t p)) (ps_future t) = true.
Proof.
  intros Hm Hlt Hseen. unfold SSDPProtocol.visit. rewrite Hm. simpl.
  case_bool_decide as Hin; simpl.
  - destruct (future_done (p_futures p) (ps_future t)) eqn:Hd; simpl; [done|].
    unfold future_done, set_result.
    by rewrite list_lookup_insert_eq.
  - by apply Hseen.
Qed.

Lemma visit_done_stable t p f :
  future_done (p_futures p) f = true ->
  future_done (p_futures (visit t p)) f = true.
Proof.
  intros (s & Hs & Hr)%future_done_lookup.
  apply future_done_lookup. exists s. split; [|done].
  destruct (visit_future t p f) as [->|(Hp & _)]; [done|].
  rewrite Hp in Hs. by inversion Hs; subst.
Qed.

Lemma visit_set_futures t p f :
  f ∈ set_futures (visit t p) <->
  f ∈ set_futures p \/ (matches t = true /\ ps_future t = f).
Proof.
  unfold SSDPProtocol.visit.
  destruct (SSDPProtocol.matches _ _ t) eqn:Hm; simpl.
  - case_bool_decide as Hin; simpl.
    + rewrite elem_of_app, list_elem_of_singleton. intuition congruence.
    + intuition congruence.
  - case_bool_decide; simpl; intuition congruence.
Qed.

Lemma Handle_cancel_length h (ts : Timers) :
  List.length (Handle_cancel h ts) = List.length ts.
Proof.
  unfold Handle_cancel. destruct (ts !! h); [|done]. by rewrite length_insert.
Qed.

(** [h.cancel()] sets the flag of [h] and nothing else. *)
Lemma Handle_cancel_lookup h (ts : Timers) h' :
  Handle_cancel h ts !! h' = ts !! h'
  \/ (h' = h /\ exists hd, ts !! h = Some hd
       /\ Handle_cancel h ts !! h
          = Some (mkHandle (h_delay hd) (h_future hd) true (h_ran hd))).
Proof.
  unfold Handle_cancel. destruct (ts !! h) as [hd|] eqn:Hl; [|by left].
  destruct (decide (h' = h)) as [->|Hne].
  - right. split; [done|]. exists hd. split; [done|].
    apply list_lookup_insert_eq. by eapply lookup_lt_Some.
  - left. by rewrite list_lookup_insert_ne.
Qed.

Lemma visit_timers t p :
  p_timers (visit t p)
  = if matches t then Handle_cancel (ps_handle t) (p_timers p) else p_timers p.
Proof.
  unfold SSDPProtocol.visit. destruct (SSDPProtocol.matches _ _ t); simpl.
  - by case_bool_decide.
  - by case_bool_decide.
Qed.

Lemma visit_tmp t p :
  tmp (visit t p)
  = if matches t then tmp p
    else if bool_decide (ps_future t ∉ set_futures p) then tmp p ++ [t]
         else tmp p.
Proof.
  unfold SSDPProtocol.visit. destruct (SSDPProtocol.matches _ _ t); simpl.
  - by case_bool_decide.
  - by case_bool_decide.
Qed.

Section Folded.

Context (fs : Futures) (ts : Timers).

Local Abbreviation after := (foldr visit (mkPass [] [] fs ts)).

Lemma after_set_futures pending f :
  f ∈ set_futures (after pending) <-> f ∈ matched_futures address packet pending.
Proof.
  unfold matched_futures. induction pending as [|t pending IH]; simpl.
  - done.
  - rewrite visit_set_futures, IH, filter_cons.
    destruct (decide (SSDPProtocol.matches _ _ t = true)) as [Hm|Hm].
    + rewrite fmap_cons, elem_of_cons. intuition congruence.
    + intuition congruence.
Qed.

Lemma after_futures_length pending :
  List.length (p_futures (after pending)) = List.length fs.
Proof.
  induction pending as [|t pending IH]; simpl; [done|].
  by rewrite visit_futures_length.
Qed.

(** The pass changes a future only from pending to finished with the
    reply, and only a future of a matching record. *)
Lemma after_future pending f :
  p_futures (after pending) !! f = fs !! f
  \/ (fs !! f = Some PENDING
      /\ p_futures (after pending) !! f = Some (FINISHED packet)
      /\ f ∈ matched_futures address packet pending).
Proof.
  induction pending as [|t pending IH]; simpl; [by left|].
  assert (Hsub : forall g, g ∈ matched_futures address packet pending ->
                           g ∈ matched_futures address packet (t :: pending)).
  { intros g. rewrite <- !after_set_futures. simpl.
    rewrite visit_set_futures. tauto. }
  destruct (visit_future t (after pending) f) as [Heq|(Hp & Hf & Hm & Hft)].
  - rewrite Heq. destruct IH as [IH|(? & ? & ?)]; [by left|right; eauto].
  - right. destruct IH as [IH|(? & IH & ?)]; [|congruence].
    split; [congruence|]. split; [done|].
    apply after_set_futures. simpl. apply visit_set_futures. by right.
Qed.

Lemma after_future_resolved pending f s :
  fs !! f = Some s -> resolved s = true ->
  p_futures (after pending) !! f = Some s.
Proof.
  intros Hf Hs. destruct (after_future pending f) as [->|(Hp & _)]; [done|].
  rewrite Hp in Hf. by inversion Hf; subst.
Qed.

Lemma after_future_unmatched pending f :
  f ∉ matched_futures address packet pending ->
  p_futures (after pending) !! f = fs !! f.
Proof.
  intros Hf. by destruct (after_future pending f) as [->|(_ & _ & ?)].
Qed.

Lemma after_seen_done pending f :
  (f < List.length fs)%nat ->
  f ∈ set_futures (after pending) ->
  future_done (p_futures (after pending)) f = true.
Proof.
  intros Hlt. induction pending as [|t pending IH]; simpl; intros Hin.
  - by apply elem_of_nil in Hin.
  - apply visit_set_futures in Hin as [Hin|[Hm <-]].
    + by apply visit_done_stable, IH.
    + apply visit_matching_done; [done| |done].
      by rewrite after_futures_length.
Qed.

(** A matching record whose future was pending finds it finished with the
    reply. *)
Lemma after_matching_finished pending t :
  t ∈ pending -> matches t = true -> fs !! ps_future t = Some PENDING ->
  p_futures (after pending) !! ps_future t = Some (FINISHED packet).
Proof.
  intros Hin Hm Hp.
  destruct (after_future pending (ps_future t)) as [Heq|(_ & Hf & _)]; [|done].
  assert (Hdone : future_done (p_futures (after pending)) (ps_future t) = true).
  { apply after_seen_done; [by eapply lookup_lt_Some|].
    apply after_set_futures. unfold matched_futures.
    apply list_elem_of_fmap. exists t. split; [done|].
    by apply list_elem_of_filter. }
  apply future_done_lookup in Hdone as (s & Hs & Hr).
  rewrite Heq, Hp in Hs. by inversion Hs; subst.
Qed.

Lemma after_timers_length pending :
  List.length (p_timers (after pending)) = List.length ts.
Proof.
  induction pending as [|t pending IH]; simpl; [done|].
  rewrite visit_timers. destruct (SSDPProtocol.matches _ _ t); [|done].
  by rewrite Handle_cancel_length.
Qed.

(** The pass cancels the handles of matching records and touches no other
    handle. *)
Lemma after_timer pending h :
  p_timers (after pending) !! h = ts !! h
  \/ (exists hd, ts !! h = Some hd
       /\ p_timers (after pending) !! h
          = Some (mkHandle (h_delay hd) (h_future hd) true (h_ran hd))
       /\ exists t, t ∈ pending /\ matches t = true /\ ps_handle t = h).
Proof.
  induction pending as [|t pending IH]; simpl; [by left|].
  rewrite visit_timers.
  destruct (SSDPProtocol.matches _ _ t) eqn:Hm.
  - destruct (Handle_cancel_lookup (ps_handle t) (p_timers (after pending)) h)
      as [->|(-> & hd' & Hl & ->)].
    + destruct IH as [IH|(hd & ? & ? & t' & ? & ? & ?)]; [by left|].
      right. exists hd. split_and!; [done..|].
      exists t'. split_and!; [by right|done..].
    + right. destruct IH as [IH|(hd & Hts & IH & _)].
      * exists hd'. split_and!; [congruence|done|].
        exists t. split_and!; [by left|done..].
      * exists hd. rewrite IH in Hl. inversion Hl; subst hd'. simpl.
        split_and!; [done..|]. exists t. split_and!; [by left|done..].
  - destruct IH as [IH|(hd & ? & ? & t' & ? & ? & ?)]; [by left|].
    right. exists hd. split_and!; [done..|].
    exists t'. split_and!; [by right|done..].
Qed.

Lemma after_tmp_sublist pending : rev (tmp (after pending)) `sublist_of` pending.
Proof.
  induction pending as [|t pending IH]; simpl; [done|].
  rewrite visit_tmp. destruct (SSDPProtocol.matches _ _ t).
  - by apply sublist_cons.
  - case_bool_decide.
    + rewrite rev_unit. by apply sublist_skip.
    + by apply sublist_cons.
Qed.

Lemma after_tmp_keeps (seen : list nat) pending :
  (forall f, f ∈ matched_futures address packet pending -> f ∈ seen) ->
  filter (fun t => matches t = false /\ ps_future t ∉ seen) pending
    `sublist_of` rev (tmp (after pending)).
Proof.
  induction pending as [|t pending IH]; simpl; intros Hseen; [done|].
  assert (Hseen' : forall f, f ∈ matched_futures address packet pending ->
                             f ∈ seen).
  { intros f Hf. apply Hseen. apply after_set_futures. simpl.
    apply visit_set_futures. left. by apply after_set_futures. }
  specialize (IH Hseen').
  rewrite visit_tmp, filter_cons.
  destruct (SSDPProtocol.matches _ _ t) eqn:Hm.
  - rewrite decide_False; [done|]. intros [? _]. congruence.
  - case_bool_decide as Hin.
    + rewrite rev_unit. case_decide.
      * by apply sublist_skip.
      * by apply sublist_cons.
    + rewrite decide_False; [done|]. intros [_ Hn]. apply Hn, Hseen'.
      by apply after_set_futures.
Qed.

End Folded.

End PassLemmas.

(** ** The matching pass on a protocol instance *)

Section Callback.

Import SSDPProtocol.

Context (self : nat) (address : string) (packet : SSDPDatagram).

Local Abbreviation callback := (_callback_m_search_ok self address packet).

Lemma callback_absent w : endpoints w !! self = None -> callback w = w.
Proof. unfold SSDPProtocol._callback_m_search_ok. by intros ->. Qed.

Lemma callback_futures w e :
  endpoints w !! self = Some e ->
  futures (callback w)
  = p_futures (foldr (visit address packet) (mkPass [] [] (futures w) (timers w))
                 (_pending_searches e)).
Proof.
  intros He. unfold SSDPProtocol._callback_m_search_ok.
  rewrite He, match_pass_foldr. done.
Qed.

Lemma callback_timers w e :
  endpoints w !! self = Some e ->
  timers (callback w)
  = p_timers (foldr (visit address packet) (mkPass [] [] (futures w) (timers w))
                (_pending_searches e)).
Proof.
  intros He. unfold SSDPProtocol._callback_m_search_ok.
  rewrite He, match_pass_foldr. done.
Qed.

Lemma callback_endpoints w e :
  endpoints w !! self = Some e ->
  endpoints (callback w)
  = <[self :=
        with_pending
          (rev (tmp (foldr (visit address packet)
                       (mkPass [] [] (futures w) (timers w))
                       (_pending_searches e)))) e]> (endpoints w).
Proof.
  intros He. unfold SSDPProtocol._callback_m_search_ok.
  rewrite He, match_pass_foldr. done.
Qed.

Lemma callback_endpoint w e :
  endpoints w !! self = Some e ->
  endpoints (callback w) !! self
  = Some (with_pending
            (rev (tmp (foldr (visit address packet)
                         (mkPass [] [] (futures w) (timers w))
                         (_pending_searches e)))) e).
Proof.
  intros He. rewrite (callback_endpoints w e He).
  apply list_lookup_insert_eq. by eapply lookup_lt_Some.
Qed.

Lemma callback_other_endpoint w i :
  i <> self -> endpoints (callback w) !! i = endpoints w !! i.
Proof.
  intros Hne. destruct (endpoints w !! self) as [e|] eqn:He.
  - rewrite (callback_endpoints w e He). by rewrite list_lookup_insert_ne.
  - by rewrite callback_absent.
Qed.

(** A future that is resolved is left as it is. *)
Lemma callback_resolved_stable w f s :
  futures w !! f = Some s -> resolved s = true ->
  futures (callback w) !! f = Some s.
Proof.
  intros Hf Hs. destruct (endpoints w !! self) as [e|] eqn:He.
  - rewrite (callback_futures w e He). by apply after_future_resolved.
  - by rewrite callback_absent.
Qed.

Lemma callback_futures_length w :
  List.length (futures (callback w)) = List.length (futures w).
Proof.
  destruct (endpoints w !! self) as [e|] eqn:He.
  - rewrite (callback_futures w e He). apply after_futures_length.
  - by rewrite callback_absent.
Qed.

End Callback.

(** ** Futures, handles and the loop *)

Lemma cancel_length f (fs : Futures) :
  List.length (cancel f fs) = List.length fs.
Proof.
  unfold cancel. destruct (future_done fs f); [done|]. by rewrite length_insert.
Qed.

Lemma cancel_resolved_stable f (fs : Futures) g s :
  fs !! g = Some s -> resolved s = true -> cancel f fs !! g = Some s.
Proof.
  intros Hg Hs. unfold cancel.
  destruct (future_done fs f) eqn:Hd; [done|].
  destruct (decide (g = f)) as [->|Hne].
  - unfold future_done in Hd. rewrite Hg in Hd. congruence.
  - by rewrite list_lookup_insert_ne.
Qed.

Lemma cancel_pending f (fs : Futures) :
  fs !! f = Some PENDING -> cancel f fs !! f = Some CANCELLED.
Proof.
  intros Hf. unfold cancel. rewrite (future_done_pending _ _ Hf).
  apply list_lookup_insert_eq. by eapply lookup_lt_Some.
Qed.

Lemma cancel_done f (fs : Futures) :
  (f < List.length fs)%nat -> future_done (cancel f fs) f = true.
Proof.
  intros Hlt. unfold cancel. destruct (future_done fs f) eqn:Hd; [done|].
  unfold future_done. by rewrite list_lookup_insert_eq.
Qed.

Lemma future_done_stable (fs fs' : Futures) f :
  (forall s, fs !! f = Some s -> resolved s = true -> fs' !! f = Some s) ->
  future_done fs f = true -> future_done fs' f = true.
Proof.
  intros Hst (s & Hs & Hr)%future_done_lookup.
  apply future_done_lookup. exists s. split; [|done]. by apply Hst.
Qed.

Section Loop.

Import SSDPProtocol.

Context (codec : Codec).

Lemma run_timer_futures_length h w :
  List.length (futures (run_timer h w)) = List.length (futures w).
Proof.
  unfold run_timer. destruct (timers w !! h) as [hd|]; [|done].
  destruct (live hd); [|done]. simpl. apply cancel_length.
Qed.

Lemma run_timer_resolved_stable h w f s :
  futures w !! f = Some s -> resolved s = true ->
  futures (run_timer h w) !! f = Some s.
Proof.
  intros Hf Hs. unfold run_timer. destruct (timers w !! h) as [hd|]; [|done].
  destruct (live hd); [|done]. simpl. by apply cancel_resolved_stable.
Qed.

Lemma run_timer_endpoints h w : endpoints (run_timer h w) = endpoints w.
Proof.
  unfold run_timer. destruct (timers w !! h) as [hd|]; [|done].
  by destruct (live hd).
Qed.

(** What becomes of a handle when handle [h] comes due. *)
Lemma run_timer_lookup h w h' :
  timers (run_timer h w) !! h' = timers w !! h'
  \/ (h' = h /\ exists hd, timers w !! h = Some hd /\ live hd = true
      /\ timers (run_timer h w) !! h
         = Some (mkHandle (h_delay hd) (h_future hd) (h_cancelled hd) true)
      /\ futures (run_timer h w) = cancel (h_future hd) (futures w)).
Proof.
  unfold run_timer. destruct (timers w !! h) as [hd|] eqn:Hl; [|by left].
  destruct (live hd) eqn:Hlive; [|by left]. simpl.
  destruct (decide (h' = h)) as [->|Hne].
  - right. split; [done|]. exists hd. split_and!; [done..| |done].
    apply list_lookup_insert_eq. by eapply lookup_lt_Some.
  - left. by rewrite list_lookup_insert_ne.
Qed.

Lemma datagram_received_resolved_stable self data addr w f s :
  futures w !! f = Some s -> resolved s = true ->
  futures (datagram_received codec self data addr w) !! f = Some s.
Proof.
  intros Hf Hs. unfold datagram_received.
  destruct (endpoints w !! self); [|done].
  case_bool_decide; [done|].
  destruct (decode codec data); [|done].
  case_bool_decide; [|done].
  by apply callback_resolved_stable.
Qed.

Lemma run_event_resolved_stable ev w f s :
  futures w !! f = Some s -> resolved s = true ->
  futures (run_event codec ev w) !! f = Some s.
Proof.
  intros Hf Hs. destruct ev as [tr data addr|h]; simpl.
  - destruct (endpoints w !! tr); [|done].
    case_bool_decide; [|done].
    by apply datagram_received_resolved_stable.
  - by apply run_timer_resolved_stable.
Qed.

(** Whatever the loop runs, a resolved future stays as it is. *)
Lemma run_events_resolved_stable events w f s :
  futures w !! f = Some s -> resolved s = true ->
  futures (run_events codec events w) !! f = Some s.
Proof.
  revert w. unfold run_events.
  induction events as [|ev events IH]; intros w Hf Hs; simpl; [done|].
  apply IH; [|done]. by apply run_event_resolved_stable.
Qed.

End Loop.

(** ** Consistency is kept *)

Section Consistency.

Import SSDPProtocol.

Context (codec : Codec).

Lemma callback_consistent self address packet w :
  consistent w -> consistent (_callback_m_search_ok self address packet w).
Proof.
  intros Hc. destruct (endpoints w !! self) as [e|] eqn:He;
    [|by rewrite callback_absent].
  pose proof (callback_futures self address packet w e He) as Hfs.
  pose proof (callback_timers self address packet w e He) as Hts.
  set (w' := _callback_m_search_ok self address packet w) in *.
  assert (Htimer : forall h hd', timers w' !! h = Some hd' ->
            exists hd, timers w !! h = Some hd /\ h_future hd' = h_future hd
              /\ (hd' = hd \/
                  exists t, t ∈ _pending_searches e
                    /\ matches address packet t = true /\ ps_handle t = h)).
  { intros h hd' Hl. rewrite Hts in Hl.
    destruct (after_timer address packet (futures w) (timers w)
                (_pending_searches e) h) as [Heq|(hd & Hold & Hnew & Ht)].
    - rewrite Heq in Hl. exists hd'. split_and!; [done..|by left].
    - rewrite Hnew in Hl. inversion Hl; subst hd'. exists hd.
      split_and!; [done..|by right]. }
  assert (Hstable : forall f, future_done (futures w) f = true ->
                              future_done (futures w') f = true).
  { intros f. apply future_done_stable. intros s Hs Hr. rewrite Hfs.
    by apply after_future_resolved. }
  split.
  - intros i e' t Hi Ht.
    assert (exists e0, endpoints w !! i = Some e0 /\ t ∈ _pending_searches e0)
      as (e0 & Hi0 & Ht0).
    { destruct (decide (i = self)) as [->|Hne].
      - unfold w' in Hi. rewrite (callback_endpoint _ _ _ w e He) in Hi.
        inversion Hi; subst e'. simpl in Ht. exists e. split; [done|].
        eapply elem_of_sublist; [done|apply after_tmp_sublist].
      - unfold w' in Hi. rewrite callback_other_endpoint in Hi by done.
        by exists e'. }
    destruct (pending_linked w Hc i e0 t Hi0 Ht0) as (hd & Hl & Hfut).
    rewrite Hts.
    destruct (after_timer address packet (futures w) (timers w)
                (_pending_searches e) (ps_handle t))
      as [Heq|(hd0 & Hold & Hnew & _)].
    + exists hd. by rewrite Heq.
    + rewrite Hnew. rewrite Hl in Hold. inversion Hold; subst hd0.
      by eexists.
  - intros h hd' Hl. destruct (Htimer h hd' Hl) as (hd & Hold & -> & _).
    unfold w'. rewrite callback_futures_length.
    by eapply handle_target.
  - intros h hd' Hl Hlive.
    destruct (Htimer h hd' Hl) as (hd & Hold & Hfut & [->|(t & Ht & Hm & Hh)]).
    + apply Hstable. by eapply spent_resolved.
    + destruct (pending_linked w Hc self e t He Ht) as (hd0 & Hl0 & Hf0).
      rewrite Hh, Hold in Hl0. inversion Hl0; subst hd0.
      rewrite Hfut, Hf0, Hfs. apply after_seen_done.
      * rewrite <- Hf0. by eapply handle_target.
      * apply after_set_futures. unfold matched_futures.
        apply list_elem_of_fmap. exists t. split; [done|].
        by apply list_elem_of_filter.
Qed.

Lemma run_timer_consistent h w : consistent w -> consistent (run_timer h w).
Proof.
  intros Hc.
  assert (Htimer : forall h' hd', timers (run_timer h w) !! h' = Some hd' ->
            exists hd, timers w !! h' = Some hd /\ h_future hd' = h_future hd
              /\ (hd' = hd \/
                  futures (run_timer h w) = cancel (h_future hd) (futures w))).
  { intros h' hd' Hl.
    destruct (run_timer_lookup h w h') as [Heq|(-> & hd & Hold & _ & Hnew & Hf)].
    - rewrite Heq in Hl. exists hd'. split_and!; [done..|by left].
    - rewrite Hnew in Hl. inversion Hl; subst hd'. exists hd.
      split_and!; [done..|by right]. }
  split.
  - intros i e t Hi Ht. rewrite run_timer_endpoints in Hi.
    destruct (pending_linked w Hc i e t Hi Ht) as (hd & Hl & Hfut).
    destruct (run_timer_lookup h w (ps_handle t))
      as [Heq|(Heq & hd0 & Hold & _ & Hnew & _)].
    + exists hd. by rewrite Heq.
    + rewrite <- Heq in *. rewrite Hnew. rewrite Hl in Hold.
      inversion Hold; subst hd0. by eexists.
  - intros h' hd' Hl. destruct (Htimer h' hd' Hl) as (hd & Hold & -> & _).
    rewrite run_timer_futures_length. by eapply handle_target.
  - intros h' hd' Hl Hlive.
    destruct (Htimer h' hd' Hl) as (hd & Hold & Hfut & [->|Hf]).
    + eapply future_done_stable; [|by eapply spent_resolved].
      intros s Hs Hr. by apply run_timer_resolved_stable.
    + rewrite Hf, Hfut. apply cancel_done. by eapply handle_target.
Qed.

Lemma datagram_received_consistent self data addr w :
  consistent w -> consistent (datagram_received codec self data addr w).
Proof.
  intros Hc. unfold datagram_received.
  destruct (endpoints w !! self); [|done].
  case_bool_decide; [done|].
  destruct (decode codec data); [|done].
  case_bool_decide; [|done].
  by apply callback_consistent.
Qed.

Lemma run_event_consistent ev w :
  consistent w -> consistent (run_event codec ev w).
Proof.
  intros Hc. destruct ev as [tr data addr|h]; simpl.
  - destruct (endpoints w !! tr); [|done].
    case_bool_decide; [|done].
    by apply datagram_received_consistent.
  - by apply run_timer_consistent.
Qed.

Lemma run_timers_from_consistent hs w :
  consistent w -> consistent (foldl (fun w h => run_timer h w) w hs).
Proof.
  revert w. induction hs as [|h hs IH]; intros w Hc; simpl; [done|].
  by apply IH, run_timer_consistent.
Qed.

End Consistency.

(** ** An awaited future with a handle is resolved in the end *)

Section Await.

Import SSDPProtocol.

Context (codec : Codec).

Lemma callback_handle_kept self address packet w h hd :
  timers w !! h = Some hd ->
  exists hd', timers (_callback_m_search_ok self address packet w) !! h = Some hd'
    /\ h_future hd' = h_future hd.
Proof.
  intros Hl. destruct (endpoints w !! self) as [e|] eqn:He.
  - rewrite (callback_timers _ _ _ w e He).
    destruct (after_timer address packet (futures w) (timers w)
                (_pending_searches e) h) as [Heq|(hd0 & Hold & Hnew & _)].
    + exists hd. by rewrite Heq.
    + rewrite Hnew. rewrite Hl in Hold. inversion Hold; subst hd0. by eexists.
  - rewrite callback_absent by done. by exists hd.
Qed.

Lemma run_timer_handle_kept h0 w h hd :
  timers w !! h = Some hd ->
  exists hd', timers (run_timer h0 w) !! h = Some hd'
    /\ h_future hd' = h_future hd
    /\ (live hd = false -> live hd' = false)
    /\ (h = h0 -> live hd' = false).
Proof.
  intros Hl.
  destruct (run_timer_lookup h0 w h) as [Heq|(-> & hd0 & Hold & Hlive & Hnew & _)].
  - exists hd. rewrite Heq. split_and!; [done..|].
    intros ->. unfold run_timer in Heq |- *. rewrite Hl in *.
    destruct (live hd) eqn:Hlive; [|done]. simpl in Heq.
    rewrite list_lookup_insert_eq in Heq by (by eapply lookup_lt_Some).
    inversion Heq as [Hhd]. rewrite <- Hhd in Hlive. unfold live in Hlive.
    simpl in Hlive. by rewrite andb_false_r in Hlive.
  - rewrite Hl in Hold. inversion Hold; subst hd0. rewrite Hnew.
    eexists. split_and!; [done|done| |].
    + by rewrite Hlive.
    + intros _. unfold live. simpl. by rewrite andb_false_r.
Qed.

Lemma run_event_handle_kept ev w h hd :
  timers w !! h = Some hd ->
  exists hd', timers (run_event codec ev w) !! h = Some hd'
    /\ h_future hd' = h_future hd.
Proof.
  intros Hl. destruct ev as [tr data addr|h0]; simpl.
  - destruct (endpoints w !! tr) as [e|]; [|by exists hd].
    case_bool_decide; [|by exists hd].
    unfold datagram_received. destruct (endpoints w !! tr); [|by exists hd].
    case_bool_decide; [by exists hd|].
    destruct (decode codec data); [|by exists hd].
    case_bool_decide; [|by exists hd].
    by apply callback_handle_kept.
  - destruct (run_timer_handle_kept h0 w h hd Hl) as (hd' & ? & ? & _).
    by exists hd'.
Qed.

Lemma run_timers_from_spent hs w h hd :
  timers w !! h = Some hd -> (h ∈ hs \/ live hd = false) ->
  exists hd', timers (foldl (fun w h => run_timer h w) w hs) !! h = Some hd'
    /\ h_future hd' = h_future hd /\ live hd' = false.
Proof.
  revert w hd. induction hs as [|h0 hs IH]; intros w hd Hl Hin; simpl.
  - destruct Hin as [Hin|Hlive]; [by apply elem_of_nil in Hin|]. by exists hd.
  - destruct (run_timer_handle_kept h0 w h hd Hl) as (hd1 & Hl1 & Hf1 & Hk & Hh).
    destruct (IH (run_timer h0 w) hd1 Hl1) as (hd' & Hl' & Hf' & Hlive').
    + destruct Hin as [[->|Hin]%elem_of_cons|Hlive]; auto.
    + exists hd'. split_and!; [done|congruence|done].
Qed.

(** Once every scheduled handle has come due, the future of each of them
    is resolved. *)
Lemma run_timers_done w h hd :
  consistent w -> timers w !! h = Some hd ->
  future_done (futures (run_timers w)) (h_future hd) = true.
Proof.
  intros Hc Hl. unfold run_timers.
  destruct (run_timers_from_spent (seq 0 (List.length (timers w))) w h hd Hl)
    as (hd' & Hl' & Hf' & Hlive').
  { left. apply elem_of_seq. split; [lia|]. simpl. by eapply lookup_lt_Some. }
  rewrite <- Hf'.
  eapply spent_resolved; [|done..].
  by apply run_timers_from_consistent.
Qed.

Lemma result_done (fs : Futures) fut :
  future_done fs fut = true ->
  exists r, result fs fut = Some r
    /\ ((exists packet, r = Return packet) \/ r = Raise CancelledError).
Proof.
  unfold future_done, result. destruct (fs !! fut) as [[]|]; try done; eauto.
Qed.

Lemma result_outcome (fs : Futures) fut r :
  result fs fut = Some r ->
  (exists packet, r = Return packet /\ fs !! fut = Some (FINISHED packet))
  \/ (r = Raise CancelledError /\ fs !! fut = Some CANCELLED).
Proof.
  unfold result. destruct (fs !! fut) as [[]|]; try done;
    intros [= <-]; eauto.
Qed.

(** [await fut] resumes, with the reply or with [CancelledError], when some
    handle was scheduled for [fut]. *)
Lemma suspend_outcome fut events w r w' :
  consistent w ->
  (exists h hd, timers w !! h = Some hd /\ h_future hd = fut) ->
  suspend codec fut events w = (r, w') ->
  consistent w' /\ ((exists packet, r = Return packet) \/ r = Raise CancelledError).
Proof.
  revert w. induction events as [|ev events IH]; intros w Hc (h & hd & Hl & Hf);
    simpl.
  - destruct (result (futures w) fut) as [r0|] eqn:Hr.
    + intros [= <- <-]. split; [done|].
      apply result_outcome in Hr as [(p & -> & _)|(-> & _)]; eauto.
    + pose proof (run_timers_done w h hd Hc Hl) as Hdone. rewrite Hf in Hdone.
      apply result_done in Hdone as (r1 & -> & Hr1).
      intros [= <- <-]. split; [|done].
      by apply run_timers_from_consistent.
  - destruct (result (futures w) fut) as [r0|] eqn:Hr.
    + intros [= <- <-]. split; [done|].
      apply result_outcome in Hr as [(p & -> & _)|(-> & _)]; eauto.
    + apply IH; [by apply run_event_consistent|].
      destruct (run_event_handle_kept ev w h hd Hl) as (hd' & ? & ?).
      exists h, hd'. split; [done|congruence].
Qed.

End Await.

(** ** The engine's search *)

Section EngineSearch.

Import SSDPProtocol.

Context (codec : Codec).

(** Changes that leave futures, handles and registries alone keep the world
    consistent. *)
Lemma consistent_frame w w' :
  futures w' = futures w -> timers w' = timers w ->
  (forall i e', endpoints w' !! i = Some e' ->
     _pending_searches e' = []
     \/ exists e, endpoints w !! i = Some e
          /\ _pending_searches e' = _pending_searches e) ->
  consistent w -> consistent w'.
Proof.
  intros Hf Ht He Hc. split.
  - intros i e' t Hi Hin. rewrite Ht.
    destruct (He i e' Hi) as [Hnil|(e & Hi0 & Hp)].
    + rewrite Hnil in Hin. by apply elem_of_nil in Hin.
    + rewrite Hp in Hin. by eapply pending_linked.
  - intros h hd. rewrite Ht, Hf. by apply handle_target.
  - intros h hd. rewrite Ht, Hf. by apply spent_resolved.
Qed.

Lemma consistent_same w w' :
  futures w' = futures w -> timers w' = timers w ->
  endpoints w' = endpoints w -> consistent w -> consistent w'.
Proof.
  intros Hf Ht He. apply consistent_frame; [done..|].
  intros i e' Hi. right. exists e'. by rewrite <- He.
Qed.

Lemma alter_frame (f : Endpoint -> Endpoint) i (es : list Endpoint) j e' :
  (forall e, _pending_searches (f e) = _pending_searches e) ->
  alter f i es !! j = Some e' ->
  exists e, es !! j = Some e /\ _pending_searches e' = _pending_searches e.
Proof.
  intros Hf. destruct (decide (i = j)) as [->|Hne].
  - rewrite list_lookup_alter_eq. destruct (es !! j) as [e|]; [|done].
    intros [= <-]. by exists e.
  - rewrite list_lookup_alter_ne by done. intros. by exists e'.
Qed.

Lemma sendto_consistent self data addr w :
  consistent w -> consistent (sendto self data addr w).2.
Proof.
  apply consistent_frame; [done..|]. simpl. intros i e' Hi. right.
  by eapply alter_frame in Hi.
Qed.

Lemma send_many_m_searches_spec self address packets w :
  exists w', send_many_m_searches codec self address packets w = (Return (), w')
    /\ futures w' = futures w /\ timers w' = timers w
    /\ setups w' = setups w /\ arrivals w' = arrivals w
    /\ (consistent w -> consistent w')
    /\ closes <$> endpoints w' = closes <$> endpoints w.
Proof.
  revert w. induction packets as [|packet packets IH]; intros w; simpl.
  - exists w. by split_and!.
  - unfold bind. simpl.
    destruct (IH (sendto self (encode codec packet) (address, SSDP_PORT) w).2)
      as (w' & Hrun & Hf & Ht & Hs & Ha & Hc & Hcl).
    exists w'. split_and!; [done..| |].
    + intros H. by apply Hc, sendto_consistent.
    + rewrite Hcl. simpl. apply list_eq. intros i.
      rewrite !list_lookup_fmap.
      destruct (decide (self = i)) as [->|Hne].
      * rewrite list_lookup_alter_eq. by destruct (endpoints w !! i).
      * by rewrite list_lookup_alter_ne.
Qed.

(** One round of the [for] loop keeps the world consistent. *)
Lemma schedule_consistent self address s timeout fut w :
  consistent w -> (fut < List.length (futures w))%nat ->
  consistent
    (append_pending self (address, s, fut, List.length (timers w))
       (call_later timeout fut w).2).2.
Proof.
  intros Hc Hlt. split; simpl.
  - intros i e' t Hi Hin.
    destruct (decide (self = i)) as [->|Hne].
    + rewrite list_lookup_alter_eq in Hi.
      destruct (endpoints w !! i) as [e|] eqn:He; [|done].
      inversion Hi; subst e'. simpl in Hin.
      apply elem_of_app in Hin as [Hin|Hin%list_elem_of_singleton].
      * destruct (pending_linked w Hc i e t He Hin) as (hd & Hl & Hf).
        exists hd. split; [|done]. by apply lookup_app_l_Some.
      * subst t. exists (mkHandle timeout fut false false). split; [|done].
        unfold ps_handle. simpl. rewrite lookup_app_r by done.
        by rewrite Nat.sub_diag.
    + rewrite list_lookup_alter_ne in Hi by done.
      destruct (pending_linked w Hc i e' t Hi Hin) as (hd & Hl & Hf).
      exists hd. split; [|done]. by apply lookup_app_l_Some.
  - intros h hd [Hl|[_ Hl]]%lookup_app_Some.
    + by eapply handle_target.
    + destruct (h - List.length (timers w))%nat; [|done].
      by inversion Hl; subst hd.
  - intros h hd [Hl|[_ Hl]]%lookup_app_Some Hlive.
    + by eapply spent_resolved.
    + destruct (h - List.length (timers w))%nat; [|done].
      by inversion Hl; subst hd.
Qed.

(** The [for] loop goes through when every request has a search target: it
    schedules one handle for [fut] per request. *)
Lemma register_carries self address timeout fut datagrams packets w :
  consistent w -> (fut < List.length (futures w))%nat ->
  Forall (carries_st codec) datagrams ->
  exists packets' w',
    register codec self address timeout fut datagrams packets w
    = (Return packets', w')
    /\ consistent w' /\ futures w' = futures w
    /\ (datagrams <> [] ->
        exists h hd, timers w' !! h = Some hd /\ h_future hd = fut)
    /\ (forall h hd, timers w !! h = Some hd -> timers w' !! h = Some hd).
Proof.
  intros Hc Hlt Hall. revert packets w Hc Hlt.
  induction Hall as [|datagram datagrams [s Hs] Hall IH]; intros packets w Hc Hlt;
    simpl.
  - exists packets, w. by split_and!.
  - rewrite Hs. unfold bind at 1. simpl. unfold bind at 1. simpl.
    pose proof (schedule_consistent self address s timeout fut w Hc Hlt) as Hc1.
    simpl in Hc1.
    edestruct (IH (packets ++ [construct codec _M_SEARCH datagram])) as
      (packets' & w' & Hrun & Hc' & Hf' & _ & Hkept); [exact Hc1|done|].
    exists packets', w'. split_and!; [done..| |].
    + intros _. exists (List.length (timers w)).
      exists (mkHandle timeout fut false false). split; [|done].
      apply Hkept. simpl. rewrite lookup_app_r by done.
      by rewrite Nat.sub_diag.
    + intros h hd Hl. apply Hkept. simpl. by apply lookup_app_l_Some.
Qed.

(** The [for] loop stops at the first request without a search target;
    nothing was sent by then. *)
Lemma register_null self address timeout fut datagrams packets w :
  Exists (fun d => st (construct codec _M_SEARCH d) = None) datagrams ->
  exists w',
    register codec self address timeout fut datagrams packets w
    = (Raise AssertionError, w')
    /\ all_sent w' = all_sent w
    /\ closes <$> endpoints w' = closes <$> endpoints w.
Proof.
  revert packets w. induction datagrams as [|datagram datagrams IH];
    intros packets w Hex; simpl.
  - by apply Exists_nil in Hex.
  - destruct (st (construct codec _M_SEARCH datagram)) as [s|] eqn:Hs.
    + apply Exists_cons in Hex as [Hex|Hex]; [congruence|].
      unfold bind at 1. simpl. unfold bind at 1. simpl.
      edestruct IH as (w' & -> & Hsent & Hcl); [done|].
      exists w'. split; [done|]. unfold all_sent in *.
      rewrite Hsent, Hcl. simpl.
      split; apply list_eq; intros i; rewrite !list_lookup_fmap;
        (destruct (decide (self = i)) as [->|Hne];
         [rewrite list_lookup_alter_eq; by destruct (endpoints w !! i)
         |by rewrite list_lookup_alter_ne]).
    + exists w. by split_and!.
Qed.

End EngineSearch.

Section EngineOutcome.

Import SSDPProtocol.

Context (codec : Codec).

Lemma new_future_consistent w :
  consistent w -> consistent (with_futures (futures w ++ [PENDING]) w).
Proof.
  intros Hc. split; simpl.
  - by apply pending_linked.
  - intros h hd Hl. rewrite length_app. simpl.
    pose proof (handle_target w Hc h hd Hl). lia.
  - intros h hd Hl Hlive.
    pose proof (spent_resolved w Hc h hd Hl Hlive) as Hd.
    apply future_done_lookup in Hd as (s & Hs & Hr).
    apply future_done_lookup. exists s. split; [|done].
    by apply lookup_app_l_Some.
Qed.

(** A search with at least one request, all with a search target, ends:
    with a reply or with [CancelledError]. *)
Lemma engine_m_search_outcome self address timeout datagrams w r w' :
  consistent w -> datagrams <> [] -> Forall (carries_st codec) datagrams ->
  m_search codec self address timeout datagrams w = (r, w') ->
  consistent w'
  /\ ((exists packet, r = Return packet) \/ r = Raise CancelledError).
Proof.
  intros Hc Hne Hall. unfold m_search, bind at 1, new_future. simpl.
  unfold bind at 1.
  destruct (register_carries codec self address timeout
              (List.length (futures w)) datagrams []
              (with_futures (futures w ++ [PENDING]) w))
    as (packets & w1 & -> & Hc1 & Hf1 & Hh1 & _).
  { by apply new_future_consistent. }
  { simpl. rewrite length_app. simpl. lia. }
  { done. }
  unfold bind at 1.
  destruct (send_many_m_searches_spec codec self address packets w1)
    as (w2 & -> & Hf2 & Ht2 & _ & _ & Hc2 & _).
  specialize (Hc2 Hc1). destruct (Hh1 Hne) as (h & hd & Hl & Hfut).
  unfold await. destruct (arrivals w2) as [|events later]; intros Hrun.
  - eapply suspend_outcome; [| |exact Hrun]; [done|].
    exists h, hd. by rewrite Ht2.
  - eapply suspend_outcome; [| |exact Hrun].
    + revert Hc2. by apply consistent_same.
    + exists h, hd. simpl. by rewrite Ht2.
Qed.

(** A search with a request that has no search target fails on the
    assertion, and no datagram was sent. *)
Lemma engine_m_search_null self address timeout datagrams w :
  Exists (fun d => st (construct codec _M_SEARCH d) = None) datagrams ->
  exists w',
    m_search codec self address timeout datagrams w = (Raise AssertionError, w')
    /\ all_sent w' = all_sent w
    /\ closes <$> endpoints w' = closes <$> endpoints w.
Proof.
  intros Hex. unfold m_search, bind at 1, new_future. simpl.
  unfold bind at 1.
  destruct (register_null codec self address timeout
              (List.length (futures w)) datagrams []
              (with_futures (futures w ++ [PENDING]) w) Hex)
    as (w' & -> & Hsent & Hcl).
  by exists w'.
Qed.

End EngineOutcome.

(** ** Set-up and the single search *)

Section SingleSearch.

Context (codec : Codec).

Lemma listen_ssdp_outcome lan_address gateway_address ssdp_socket w r w' :
  consistent w ->
  listen_ssdp lan_address gateway_address ssdp_socket w = (r, w') ->
  consistent w'
  /\ ((exists transport,
         r = Return (transport, transport, gateway_address, lan_address)
         /\ transport = List.length (endpoints w))
      \/ exists err, r = Raise (UPnPError_of err)).
Proof.
  intros Hc. unfold listen_ssdp, next_setup.
  assert (Hframe : forall (f : Endpoint -> Endpoint) w0,
            (forall e, _pending_searches (f e) = _pending_searches e) ->
            futures w0 = futures w -> timers w0 = timers w ->
            endpoints w0
            = alter f (List.length (endpoints w))
                (endpoints w ++
                 [mkEndpoint SSDP_IP_ADDRESS lan_address ssdp_socket None None
                    [] [] 0]) ->
            consistent w0).
  { intros f w0 Hf Hfs Hts Hes.
    eapply consistent_frame; [exact Hfs|exact Hts| |exact Hc].
    intros i e' Hi. rewrite Hes in Hi.
    eapply alter_frame in Hi as (e & Hi & Hp); [|done].
    apply lookup_app_Some in Hi as [Hi|[_ Hi]].
    - right. by exists e.
    - left. destruct (i - List.length (endpoints w))%nat; [|done].
      rewrite Hp. by inversion Hi. }
  destruct (setups w) as [|[|err|err] later]; simpl;
    unfold bind, create_datagram_endpoint, join_group_set_ttl, close, ret, raise;
    simpl; intros [= <- <-].
  - split; [|left; by eexists].
    eapply Hframe; cycle 3; [simpl; reflexivity|done..].
  - split; [|left; by eexists].
    eapply Hframe; cycle 3; [simpl; reflexivity|done..].
  - split; [|right; by eexists].
    revert Hc. by apply consistent_same.
  - split; [|right; by eexists].
    eapply Hframe; cycle 3; [simpl; reflexivity|done..].
Qed.

Lemma close_consistent transport w :
  consistent w -> consistent (close transport w).2.
Proof.
  apply consistent_frame; [done..|]. simpl. intros i e' Hi. right.
  by eapply alter_frame in Hi.
Qed.

(** The single search for a parameter set with a search target ends: with
    a reply or with a [UPnPError]. *)
Lemma m_search_outcome lan_address gateway_address datagram_args timeout
    ssdp_socket w r w' :
  consistent w -> carries_st codec datagram_args ->
  m_search codec lan_address gateway_address datagram_args timeout ssdp_socket w
  = (r, w') ->
  consistent w'
  /\ ((exists packet, r = Return packet)
      \/ (exists msg, r = Raise (UPnPError msg))
      \/ (exists err, r = Raise (UPnPError_of err))).
Proof.
  intros Hc Hst. unfold m_search, bind at 1.
  destruct (listen_ssdp lan_address gateway_address ssdp_socket w)
    as [r0 w0] eqn:Hlisten.
  destruct (listen_ssdp_outcome _ _ _ _ _ _ Hc Hlisten)
    as (Hc0 & [(transport & -> & _)|(err & ->)]).
  - unfold try_finally, try_except.
    destruct (SSDPProtocol.m_search codec transport gateway_address timeout
                [datagram_args] w0) as [r1 w1] eqn:Hengine.
    assert (Hne : [datagram_args] <> []) by done.
    assert (Hall : Forall (carries_st codec) [datagram_args])
      by (by apply Forall_singleton).
    destruct (engine_m_search_outcome codec _ _ _ _ _ _ _ Hc0 Hne Hall Hengine)
      as (Hc1 & [(packet & ->)| ->]); simpl; intros [= <- <-].
    + split; [by apply close_consistent|]. left. by eexists.
    + split; [by apply close_consistent|]. right. left. by eexists.
  - intros [= <- <-]. split; [done|]. right. right. by eexists.
Qed.

End SingleSearch.

(** ** Fuzzy discovery *)

Section Fuzzy.

Context (codec : Codec).

Lemma not_carries_st datagrams :
  ~ Forall (carries_st codec) datagrams ->
  Exists (fun d => st (construct codec _M_SEARCH d) = None) datagrams.
Proof.
  intros Hn. apply not_Forall_Exists in Hn; [|apply _].
  eapply Exists_impl; [exact Hn|]. intros d Hd. unfold carries_st in Hd.
  by apply eq_None_not_Some.
Qed.

(** A batch the loop returns was answered: each of its parameter sets
    passed the assertion. *)
Lemma batches_viable rounds protocol gateway_address wait packet_args w batch w' :
  consistent w ->
  batches codec rounds protocol gateway_address wait packet_args w
  = (Return batch, w') ->
  consistent w' /\ Forall (carries_st codec) batch.
Proof.
  revert packet_args w.
  induction rounds as [|rounds IH]; intros packet_args w Hc;
    destruct packet_args as [|d packet_args]; simpl; try done.
  unfold try_except, bind.
  destruct (SSDPProtocol.m_search codec protocol gateway_address wait
              (d :: take 1 packet_args) w) as [r1 w1] eqn:Hengine.
  destruct (decide (Forall (carries_st codec) (d :: take 1 packet_args)))
    as [Hall|Hnot].
  - assert (Hne : d :: take 1 packet_args <> []) by done.
    destruct (engine_m_search_outcome codec _ _ _ _ _ _ _ Hc Hne Hall Hengine)
      as (Hc1 & [(packet & ->)| ->]); simpl.
    + by intros [= <- <-].
    + by apply IH.
  - apply not_carries_st in Hnot.
    destruct (engine_m_search_null codec protocol gateway_address wait _ w Hnot)
      as (w0 & Hrun & _).
    rewrite Hrun in Hengine. by inversion Hengine; subst.
Qed.

Lemma _fuzzy_m_search_viable packet_generator lan_address gateway_address
    timeout ssdp_socket w batch w' :
  consistent w ->
  _fuzzy_m_search codec packet_generator lan_address gateway_address timeout
    ssdp_socket w = (Return batch, w') ->
  consistent w' /\ Forall (carries_st codec) batch.
Proof.
  intros Hc. unfold _fuzzy_m_search, bind at 1.
  destruct (listen_ssdp lan_address gateway_address ssdp_socket w)
    as [r0 w0] eqn:Hlisten.
  destruct (listen_ssdp_outcome _ _ _ _ _ _ Hc Hlisten)
    as (Hc0 & [(transport & -> & _)|(err & ->)]); [|done].
  case_bool_decide; [done|]. by apply batches_viable.
Qed.

(** On a viable batch the [for] loop of [fuzzy_m_search] is the search for
    the first candidate that succeeds on its own. *)
Lemma try_each_first_success lan_address gateway_address batch w :
  consistent w -> Forall (carries_st codec) batch ->
  try_each codec lan_address gateway_address batch w
  = first_success codec lan_address gateway_address batch w
  /\ ((exists args packet,
         (first_success codec lan_address gateway_address batch w).1
         = Return (args, packet) /\ args ∈ batch)
      \/ (first_success codec lan_address gateway_address batch w).1
         = Raise (UPnPError "failed to discover gateway")).
Proof.
  intros Hc Hall. revert w Hc.
  induction Hall as [|args rest Hst Hall IH]; intros w Hc; simpl.
  - split; [done|by right].
  - unfold try_except, bind.
    destruct (m_search codec lan_address gateway_address args 3 None w)
      as [r1 w1] eqn:Hsearch.
    destruct (m_search_outcome codec _ _ _ _ _ _ _ _ Hc Hst Hsearch)
      as (Hc1 & [(packet & ->)|[(msg & ->)|(err & ->)]]); simpl.
    + split; [done|]. left. exists args, packet. split; [done|by left].
    + destruct (IH w1 Hc1) as (-> & Hshape). split; [done|].
      destruct Hshape as [(a & p & ? & ?)|?]; [left|by right].
      exists a, p. split; [done|by right].
    + destruct (IH w1 Hc1) as (-> & Hshape). split; [done|].
      destruct Hshape as [(a & p & ? & ?)|?]; [left|by right].
      exists a, p. split; [done|by right].
Qed.

End Fuzzy.

(** A loop that has created nothing yet is consistent, whatever its
    environment holds in store. *)
Lemma fresh_loop_consistent ss arrivals : consistent (mkWorld [] [] [] ss arrivals).
Proof. split; intros ? ? ?; simpl; by rewrite ?lookup_nil. Qed.

(** ** What a pass does to the records it matches *)

Lemma matches_intro address packet t :
  ps_address t = address ->
  st packet = Some (ps_st t) \/ ps_st t = "upnp:rootdevice" ->
  SSDPProtocol.matches address packet t = true.
Proof.
  intros Ha Hst. unfold SSDPProtocol.matches.
  rewrite bool_decide_eq_true_2 by done. simpl.
  destruct Hst as [Hst|Hst].
  - rewrite (bool_decide_eq_true_2 (Some (ps_st t) = st packet)); done.
  - rewrite (bool_decide_eq_true_2 (ps_st t = "upnp:rootdevice")) by done.
    apply orb_true_r.
Qed.

Lemma callback_matching_finished self address packet w e t :
  endpoints w !! self = Some e ->
  t ∈ _pending_searches e ->
  SSDPProtocol.matches address packet t = true ->
  futures w !! ps_future t = Some PENDING ->
  futures (SSDPProtocol._callback_m_search_ok self address packet w)
    !! ps_future t = Some (FINISHED packet).
Proof.
  intros He Ht Hm Hp.
  rewrite (callback_futures self address packet w e He).
  by apply after_matching_finished.
Qed.

(** * The claims *)

(** ** Matching replies to pending searches *)

(** C1, as amended.  A reply from address A resolves every still-pending
    search registered for A whose own search target is the reply's search
    target or is "upnp:rootdevice": the wildcard is read on the side of the
    pending search, not on the side of the reply. *)
Theorem pending_search_resolved_by_matching_reply
    (self : nat) (address : string) (packet : SSDPDatagram) (w : World)
    (e : Endpoint) (t : PendingSearch) :
  endpoints w !! self = Some e ->
  t ∈ _pending_searches e ->
  ps_address t = address ->
  st packet = Some (ps_st t) \/ ps_st t = "upnp:rootdevice" ->
  futures w !! ps_future t = Some PENDING ->
  futures (SSDPProtocol._callback_m_search_ok self address packet w)
    !! ps_future t = Some (FINISHED packet).
Proof.
  intros He Ht Ha Hst Hp.
  apply (callback_matching_finished self address packet w e t); try done.
  by apply matches_intro.
Qed.

(** A search for "upnp:rootdevice" is resolved by a reply for another
    target. *)
Lemma pending_search_resolved_by_matching_reply_witness :
  futures
    (SSDPProtocol._callback_m_search_ok 0 gateway (ok_reply wan_ip)
       (engine_world [(gateway, rootdevice, 0, 0)] [PENDING] [timer 0]))
    !! 0 = Some (FINISHED (ok_reply wan_ip)).
Proof.
  apply (pending_search_resolved_by_matching_reply 0 gateway (ok_reply wan_ip)
           (engine_world [(gateway, rootdevice, 0, 0)] [PENDING] [timer 0])
           (bound [(gateway, rootdevice, 0, 0)]) (gateway, rootdevice, 0, 0)).
  - reflexivity.
  - apply list_elem_of_here.
  - reflexivity.
  - right. reflexivity.
  - reflexivity.
Defined.

(** C1, as stated, fails: a reply whose search target is "upnp:rootdevice"
    leaves a pending search for another target of the same address
    unresolved and in the registry. *)
Lemma rootdevice_reply_leaves_other_target_pending :
  let w :=
    SSDPProtocol._callback_m_search_ok 0 gateway (ok_reply rootdevice)
      (engine_world [(gateway, wan_ip, 0, 0)] [PENDING] [timer 0]) in
  futures w !! 0 = Some PENDING
  /\ _pending_searches <$> endpoints w !! 0 = Some [(gateway, wan_ip, 0, 0)]
  /\ timers w !! 0 = Some (timer 0).
Proof. vm_compute. done. Qed.

(** C3, as amended.  For pending searches P1 and P2 on address A with
    targets T1 and T2, where T2 is neither T1 nor "upnp:rootdevice" and the
    result slot of P2 is not the slot of a record the reply matches: a reply
    from A with target T1 resolves P1 and does not resolve P2, which stays
    in the registry. *)
Theorem reply_resolves_only_its_target
    (self : nat) (address : string) (packet : SSDPDatagram) (w : World)
    (e : Endpoint) (P1 P2 : PendingSearch) :
  endpoints w !! self = Some e ->
  P1 ∈ _pending_searches e -> P2 ∈ _pending_searches e ->
  ps_address P1 = address -> ps_address P2 = address ->
  st packet = Some (ps_st P1) ->
  ps_st P2 <> ps_st P1 -> ps_st P2 <> "upnp:rootdevice" ->
  ps_future P2 ∉ matched_futures address packet (_pending_searches e) ->
  futures w !! ps_future P1 = Some PENDING ->
  let w' := SSDPProtocol._callback_m_search_ok self address packet w in
  futures w' !! ps_future P1 = Some (FINISHED packet)
  /\ futures w' !! ps_future P2 = futures w !! ps_future P2
  /\ exists e', endpoints w' !! self = Some e' /\ P2 ∈ _pending_searches e'.
Proof.
  intros He H1 H2 Ha1 Ha2 Hst Hne Hroot Hslot Hp w'. unfold w'.
  split_and!.
  - apply (callback_matching_finished self address packet w e P1); try done.
    apply matches_intro; [done|by left].
  - rewrite (callback_futures self address packet w e He).
    by apply after_future_unmatched.
  - rewrite (callback_endpoint self address packet w e He).
    eexists. split; [done|]. simpl.
    eapply elem_of_sublist;
      [|apply (after_tmp_keeps address packet (futures w) (timers w)
                 (matched_futures address packet (_pending_searches e)));
        done].
    apply list_elem_of_filter. split; [|done]. split; [|done].
    unfold SSDPProtocol.matches.
    rewrite (bool_decide_eq_false_2 (Some (ps_st P2) = st packet))
      by (rewrite Hst; congruence).
    rewrite (bool_decide_eq_false_2 (ps_st P2 = "upnp:rootdevice")) by done.
    apply andb_false_r.
Qed.

Lemma reply_resolves_only_its_target_witness :
  let w := engine_world [(gateway, wan_ip, 0, 0); (gateway, wan_ppp, 1, 1)]
             [PENDING; PENDING] [timer 0; timer 1] in
  let w' := SSDPProtocol._callback_m_search_ok 0 gateway (ok_reply wan_ip) w in
  futures w' !! 0 = Some (FINISHED (ok_reply wan_ip))
  /\ futures w' !! 1 = Some PENDING
  /\ exists e', endpoints w' !! 0 = Some e'
       /\ (gateway, wan_ppp, 1, 1) ∈ _pending_searches e'.
Proof.
  apply (reply_resolves_only_its_target 0 gateway (ok_reply wan_ip)
           (engine_world [(gateway, wan_ip, 0, 0); (gateway, wan_ppp, 1, 1)]
              [PENDING; PENDING] [timer 0; timer 1])
           (bound [(gateway, wan_ip, 0, 0); (gateway, wan_ppp, 1, 1)])
           (gateway, wan_ip, 0, 0) (gateway, wan_ppp, 1, 1)).
  - reflexivity.
  - apply list_elem_of_here.
  - apply list_elem_of_further, list_elem_of_here.
  - reflexivity.
  - reflexivity.
  - reflexivity.
  - apply (bool_decide_unpack _). vm_compute. exact I.
  - apply (bool_decide_unpack _). vm_compute. exact I.
  - apply (bool_decide_unpack _). vm_compute. exact I.
  - reflexivity.
Defined.

(** C3, as stated, fails: with T2 = "upnp:rootdevice", a reply for T1
    resolves P2 as well, although T2 differs from T1 and P2 has a result slot
    of its own. *)
Lemma rootdevice_search_resolved_by_other_target :
  let w :=
    SSDPProtocol._callback_m_search_ok 0 gateway (ok_reply wan_ip)
      (engine_world [(gateway, wan_ip, 0, 0); (gateway, rootdevice, 1, 1)]
         [PENDING; PENDING] [timer 0; timer 1]) in
  rootdevice <> wan_ip
  /\ futures w !! 0 = Some (FINISHED (ok_reply wan_ip))
  /\ futures w !! 1 = Some (FINISHED (ok_reply wan_ip))
  /\ _pending_searches <$> endpoints w !! 0 = Some [].
Proof. split; [done|]. vm_compute. done. Qed.

(** C9, as amended.  After a matching pass, the pending records that the
    reply does not match and whose result slot is not the slot of any record
    it matches (whether or not the pass had to resolve that slot) are all
    still in the registry, in the relative order they had before; the
    registry holds no record it did not hold before and none out of order. *)
Theorem untouched_records_keep_their_order
    (self : nat) (address : string) (packet : SSDPDatagram) (w : World)
    (e : Endpoint) :
  endpoints w !! self = Some e ->
  exists e',
    endpoints (SSDPProtocol._callback_m_search_ok self address packet w) !! self
    = Some e'
    /\ filter (untouched address packet (_pending_searches e))
         (_pending_searches e) `sublist_of` _pending_searches e'
    /\ _pending_searches e' `sublist_of` _pending_searches e.
Proof.
  intros He. rewrite (callback_endpoint self address packet w e He).
  eexists. split; [done|]. simpl. split.
  - by apply (after_tmp_keeps address packet (futures w) (timers w)
                (matched_futures address packet (_pending_searches e))).
  - apply after_tmp_sublist.
Qed.

Lemma untouched_records_keep_their_order_witness :
  exists e',
    endpoints
      (SSDPProtocol._callback_m_search_ok 0 gateway (ok_reply wan_ip)
         (engine_world
            [(gateway, wan_ppp, 0, 0); (gateway, wan_ip, 1, 1);
             (gateway, wan_ppp, 2, 2)]
            [PENDING; PENDING; PENDING] [timer 0; timer 1; timer 2])) !! 0
    = Some e'
    /\ [(gateway, wan_ppp, 0, 0); (gateway, wan_ppp, 2, 2)]
         `sublist_of` _pending_searches e'
    /\ _pending_searches e'
         `sublist_of` [(gateway, wan_ppp, 0, 0); (gateway, wan_ip, 1, 1);
                       (gateway, wan_ppp, 2, 2)].
Proof.
  apply (untouched_records_keep_their_order 0 gateway (ok_reply wan_ip)
           (engine_world
              [(gateway, wan_ppp, 0, 0); (gateway, wan_ip, 1, 1);
               (gateway, wan_ppp, 2, 2)]
              [PENDING; PENDING; PENDING] [timer 0; timer 1; timer 2])
           (bound [(gateway, wan_ppp, 0, 0); (gateway, wan_ip, 1, 1);
                   (gateway, wan_ppp, 2, 2)])).
  reflexivity.
Defined.

(** C9, as stated, fails.  A search for two targets times out: its slot
    is cancelled and both records stay in the registry.  A late reply for
    the second target then drops the record of the first as well, although
    the reply does not match it and the pass did not resolve its slot. *)
Lemma unmatched_record_of_stale_slot_dropped :
  let timed_out_search :=
    SSDPProtocol.m_search toy 0 gateway 1 [params wan_ppp; params wan_ip]
      (engine_world [] [] []) in
  let w0 := timed_out_search.2 in
  let w := SSDPProtocol._callback_m_search_ok 0 gateway (ok_reply wan_ip) w0 in
  timed_out_search.1 = Raise CancelledError
  /\ _pending_searches <$> endpoints w0 !! 0
     = Some [(gateway, wan_ppp, 0, 0); (gateway, wan_ip, 0, 1)]
  /\ SSDPProtocol.matches gateway (ok_reply wan_ip) (gateway, wan_ppp, 0, 0)
     = false
  /\ futures w0 !! 0 = Some CANCELLED
  /\ futures w !! 0 = Some CANCELLED
  /\ _pending_searches <$> endpoints w !! 0 = Some [].
Proof. vm_compute. done. Qed.

(** C4, on the code: the two requests of one search share a result slot; a
    reply for the first resolves the slot, and the record of the second,
    which the pass visits before it reaches the first, stays in the registry
    with its handle still scheduled. *)
Lemma shared_slot_record_left_behind :
  let w0 :=
    mkWorld [] [] [bound []] []
      [[Datagram 0 (reply wan_ip) (gateway, 1900%Z)]] in
  let rw := SSDPProtocol.m_search toy 0 gateway 1
              [params wan_ip; params wan_ppp] w0 in
  rw.1 = Return (ok_reply wan_ip)
  /\ futures rw.2 !! 0 = Some (FINISHED (ok_reply wan_ip))
  /\ _pending_searches <$> endpoints rw.2 !! 0 = Some [(gateway, wan_ppp, 0, 1)]
  /\ timers rw.2 !! 0 = Some (mkHandle 1 0 true false)
  /\ timers rw.2 !! 1 = Some (mkHandle 1 0 false false).
Proof. vm_compute. done. Qed.

(** ** Result slots *)

Lemma run_timer_live h w hd :
  timers w !! h = Some hd -> live hd = true ->
  futures (SSDPProtocol.run_timer h w) = cancel (h_future hd) (futures w).
Proof. intros Hl Hlive. unfold SSDPProtocol.run_timer. by rewrite Hl, Hlive. Qed.

Lemma run_event_reply codec tr e data addr packet w :
  endpoints w !! tr = Some e -> closes e = 0 -> addr.1 <> lan_address e ->
  decode codec data = Some packet -> _packet_type packet = _OK ->
  SSDPProtocol.run_event codec (Datagram tr data addr) w
  = SSDPProtocol._callback_m_search_ok tr addr.1 packet w.
Proof.
  intros He Hopen Hlan Hdec Hok. simpl. rewrite He.
  rewrite bool_decide_eq_true_2 by done.
  unfold SSDPProtocol.datagram_received. rewrite He.
  rewrite bool_decide_eq_false_2 by done. rewrite Hdec.
  by rewrite bool_decide_eq_true_2.
Qed.

(** C6.  A result slot is resolved at most once.  When the timeout of a
    pending search and a reply that matches it race for its slot, the one the
    loop runs first decides: timeout first, the slot is cancelled and stays
    cancelled; reply first, the slot holds the reply and keeps it.  Whatever
    the loop runs afterwards, a resolved slot is never changed, so it never
    holds both a result and a cancellation. *)
Theorem result_slot_resolved_once
    (codec : Codec) (w : World) (tr : nat) (e : Endpoint) (data : bytes)
    (addr : string * Z) (packet : SSDPDatagram) (t : PendingSearch)
    (h : nat) (hd : Handle) (events : list LoopEvent) :
  endpoints w !! tr = Some e -> closes e = 0 -> addr.1 <> lan_address e ->
  decode codec data = Some packet -> _packet_type packet = _OK ->
  t ∈ _pending_searches e ->
  SSDPProtocol.matches addr.1 packet t = true ->
  timers w !! h = Some hd -> live hd = true -> h_future hd = ps_future t ->
  futures w !! ps_future t = Some PENDING ->
  futures (run_events codec (Timer h :: Datagram tr data addr :: events) w)
    !! ps_future t = Some CANCELLED
  /\ futures (run_events codec (Datagram tr data addr :: Timer h :: events) w)
       !! ps_future t = Some (FINISHED packet)
  /\ forall f s later, futures w !! f = Some s -> resolved s = true ->
       futures (run_events codec later w) !! f = Some s.
Proof.
  intros He Hopen Hlan Hdec Hok Ht Hm Hl Hlive Hfut Hp. split_and!.
  - change (run_events codec (Timer h :: Datagram tr data addr :: events) w)
      with (run_events codec (Datagram tr data addr :: events)
              (SSDPProtocol.run_timer h w)).
    apply run_events_resolved_stable; [|done].
    rewrite (run_timer_live h w hd Hl Hlive), Hfut.
    by apply cancel_pending.
  - change (run_events codec (Datagram tr data addr :: Timer h :: events) w)
      with (run_events codec (Timer h :: events)
              (SSDPProtocol.run_event codec (Datagram tr data addr) w)).
    apply run_events_resolved_stable; [|done].
    rewrite (run_event_reply codec tr e data addr packet w) by done.
    by apply (callback_matching_finished tr addr.1 packet w e t).
  - intros f s later. apply run_events_resolved_stable.
Qed.

Lemma result_slot_resolved_once_witness :
  let w := engine_world [(gateway, wan_ip, 0, 0)] [PENDING] [timer 0] in
  let arrival := Datagram 0 (reply wan_ip) (gateway, 1900%Z) in
  futures (run_events toy [Timer 0; arrival; arrival; Timer 0] w) !! 0
  = Some CANCELLED
  /\ futures (run_events toy [arrival; Timer 0; arrival; Timer 0] w) !! 0
     = Some (FINISHED (ok_reply wan_ip))
  /\ forall f s later, futures w !! f = Some s -> resolved s = true ->
       futures (run_events toy later w) !! f = Some s.
Proof.
  apply (result_slot_resolved_once toy
           (engine_world [(gateway, wan_ip, 0, 0)] [PENDING] [timer 0])
           0 (bound [(gateway, wan_ip, 0, 0)]) (reply wan_ip)
           (gateway, 1900%Z) (ok_reply wan_ip) (gateway, wan_ip, 0, 0)
           0 (timer 0)
           [Datagram 0 (reply wan_ip) (gateway, 1900%Z); Timer 0]).
  - reflexivity.
  - reflexivity.
  - apply (bool_decide_unpack _). vm_compute. exact I.
  - reflexivity.
  - reflexivity.
  - apply list_elem_of_here.
  - reflexivity.
  - reflexivity.
  - reflexivity.
  - reflexivity.
  - reflexivity.
Defined.

(** ** Requests without a search target *)

(** C8.  When some parameter set of a call to the engine's search gives a
    request without a search target, the call fails, on the assertion, and
    no datagram has been handed to any transport by then. *)
Theorem null_search_target_fails_before_sending
    (codec : Codec) (self : nat) (address : string) (timeout : Q)
    (datagrams : list OrderedDict) (w : World) (datagram : OrderedDict) :
  datagram ∈ datagrams ->
  st (construct codec _M_SEARCH datagram) = None ->
  exists w',
    SSDPProtocol.m_search codec self address timeout datagrams w
    = (Raise AssertionError, w')
    /\ all_sent w' = all_sent w.
Proof.
  intros Hin Hnull.
  destruct (engine_m_search_null codec self address timeout datagrams w)
    as (w' & Hrun & Hsent & _).
  { apply Exists_exists. by exists datagram. }
  by exists w'.
Qed.

Lemma null_search_target_fails_before_sending_witness :
  exists w',
    SSDPProtocol.m_search toy 0 gateway 1 [params wan_ip; no_target]
      (engine_world [] [] [])
    = (Raise AssertionError, w')
    /\ all_sent w' = all_sent (engine_world [] [] []).
Proof.
  apply (null_search_target_fails_before_sending toy 0 gateway 1
           [params wan_ip; no_target] (engine_world [] [] []) no_target).
  - apply list_elem_of_further, list_elem_of_here.
  - reflexivity.
Defined.

Section SingleSearchExits.

Context (codec : Codec).

(** When set-up succeeds, [listen_ssdp] hands out a transport that was never
    closed and never sent. *)
Lemma listen_ssdp_ok lan_address gateway_address ssdp_socket w :
  (next_setup w).1 = SetupOk ->
  exists w0,
    listen_ssdp lan_address gateway_address ssdp_socket w
    = (Return (List.length (endpoints w), List.length (endpoints w),
               gateway_address, lan_address), w0)
    /\ closes <$> endpoints w0 = (closes <$> endpoints w) ++ [0]
    /\ all_sent w0 = all_sent w ++ [[]].
Proof.
  unfold listen_ssdp, all_sent. destruct (next_setup w) as [setup w1] eqn:Hn.
  simpl. intros ->.
  assert (Hw1 : endpoints w1 = endpoints w).
  { unfold next_setup in Hn. destruct (setups w); by inversion Hn. }
  unfold bind, create_datagram_endpoint, join_group_set_ttl, ret. simpl.
  rewrite Hw1. eexists. split; [done|]. simpl.
  split; apply list_eq; intros i; rewrite list_lookup_fmap;
    (destruct (decide (List.length (endpoints w) = i)) as [<-|Hne];
     [rewrite list_lookup_alter_eq, !lookup_app_r, ?length_fmap, Nat.sub_diag
        by (rewrite ?length_fmap; lia); done
     |rewrite list_lookup_alter_ne by done;
      by rewrite <- list_lookup_fmap, fmap_app]).
Qed.

(** Every way out of the single search once the transport is bound: the
    reply is returned, a time-out or cancellation becomes the [UPnPError]
    that names gateway and port, any other exception goes through as it is;
    and the transport is closed on each of them. *)
Lemma m_search_exits lan_address gateway_address datagram_args timeout
    ssdp_socket w transport w0 r1 w1 :
  listen_ssdp lan_address gateway_address ssdp_socket w
  = (Return (transport, transport, gateway_address, lan_address), w0) ->
  SSDPProtocol.m_search codec transport gateway_address timeout
    [datagram_args] w0 = (r1, w1) ->
  m_search codec lan_address gateway_address datagram_args timeout ssdp_socket w
  = match r1 with
    | Return packet => (Return packet, (close transport w1).2)
    | Raise e =>
        (Raise (if bool_decide (e = TimeoutError \/ e = CancelledError)
                then UPnPError (timed_out gateway_address) else e),
         (close transport w1).2)
    | Suspended => (Suspended, w1)
    end.
Proof.
  intros Hlisten Hengine. unfold m_search, bind at 1. rewrite Hlisten.
  unfold try_finally, try_except. rewrite Hengine.
  destruct r1 as [packet|e|]; [done| |done].
  destruct e; simpl; try done.
Qed.

End SingleSearchExits.

(** *** The single search closes its transport once *)

Section Closes.

Import SSDPProtocol.

Context (codec : Codec).

Lemma fmap_alter_same {B} (g : Endpoint -> B) (f : Endpoint -> Endpoint) i
    (es : list Endpoint) :
  (forall e, g (f e) = g e) -> g <$> alter f i es = g <$> es.
Proof.
  intros Hg. apply list_eq. intros j. rewrite !list_lookup_fmap.
  destruct (decide (i = j)) as [->|Hne].
  - rewrite list_lookup_alter_eq. destruct (es !! j); simpl; [|done].
    by rewrite Hg.
  - by rewrite list_lookup_alter_ne.
Qed.

Lemma callback_closes self address packet w :
  closes <$> endpoints (_callback_m_search_ok self address packet w)
  = closes <$> endpoints w.
Proof.
  destruct (endpoints w !! self) as [e|] eqn:He;
    [|by rewrite callback_absent].
  rewrite (callback_endpoints self address packet w e He).
  apply list_eq. intros j. rewrite !list_lookup_fmap.
  destruct (decide (self = j)) as [<-|Hne].
  - rewrite list_lookup_insert_eq by (by eapply lookup_lt_Some).
    by rewrite He.
  - by rewrite list_lookup_insert_ne.
Qed.

Lemma run_event_closes ev w :
  closes <$> endpoints (run_event codec ev w) = closes <$> endpoints w.
Proof.
  destruct ev as [tr data addr|h]; simpl.
  - destruct (endpoints w !! tr); [|done].
    case_bool_decide; [|done].
    unfold datagram_received. destruct (endpoints w !! tr); [|done].
    case_bool_decide; [done|].
    destruct (decode codec data); [|done].
    case_bool_decide; [|done].
    apply callback_closes.
  - by rewrite run_timer_endpoints.
Qed.

Lemma run_timers_endpoints w : endpoints (run_timers w) = endpoints w.
Proof.
  unfold run_timers. generalize (seq 0 (List.length (timers w))).
  intros hs. revert w. induction hs as [|h hs IH]; intros w; simpl; [done|].
  by rewrite IH, run_timer_endpoints.
Qed.

Lemma suspend_closes fut events w :
  closes <$> endpoints (suspend codec fut events w).2 = closes <$> endpoints w.
Proof.
  revert w. induction events as [|ev events IH]; intros w; simpl.
  - destruct (result (futures w) fut); [done|].
    destruct (result (futures (run_timers w)) fut); simpl;
      by rewrite run_timers_endpoints.
  - destruct (result (futures w) fut); [done|].
    by rewrite IH, run_event_closes.
Qed.

Lemma register_closes self address timeout fut datagrams packets w :
  closes <$> endpoints
    (register codec self address timeout fut datagrams packets w).2
  = closes <$> endpoints w.
Proof.
  revert packets w. induction datagrams as [|datagram datagrams IH];
    intros packets w; simpl; [done|].
  destruct (st (construct codec _M_SEARCH datagram)) as [s|]; [|done].
  unfold bind at 1. simpl. unfold bind at 1. simpl.
  rewrite IH. simpl. by apply fmap_alter_same.
Qed.

(** The engine's search closes nothing. *)
Lemma engine_m_search_closes self address timeout datagrams w :
  closes <$> endpoints (m_search codec self address timeout datagrams w).2
  = closes <$> endpoints w.
Proof.
  unfold m_search, bind at 1, new_future. simpl. unfold bind at 1.
  pose proof (register_closes self address timeout (List.length (futures w))
                datagrams [] (with_futures (futures w ++ [PENDING]) w)) as Hreg.
  destruct (register codec self address timeout (List.length (futures w))
              datagrams [] (with_futures (futures w ++ [PENDING]) w))
    as [[packets|e|] w1]; simpl in *; [|done..].
  unfold bind at 1.
  destruct (send_many_m_searches_spec codec self address packets w1)
    as (w2 & -> & _ & _ & _ & _ & _ & Hcl).
  rewrite <- Hreg, <- Hcl. unfold await.
  destruct (arrivals w2); by rewrite suspend_closes.
Qed.

End Closes.

Section ClosesOnce.

Context (codec : Codec).

(** Whenever set-up succeeds and the single search comes to an end, by a
    reply, a time-out or any other exception, its transport has been closed
    exactly once and no other transport has been closed. *)
Lemma m_search_closes_once lan_address gateway_address datagram_args timeout
    ssdp_socket w :
  (next_setup w).1 = SetupOk ->
  (m_search codec lan_address gateway_address datagram_args timeout
     ssdp_socket w).1 <> Suspended ->
  closes <$> endpoints
    (m_search codec lan_address gateway_address datagram_args timeout
       ssdp_socket w).2
  = (closes <$> endpoints w) ++ [1].
Proof.
  intros Hsetup.
  destruct (listen_ssdp_ok lan_address gateway_address ssdp_socket w Hsetup)
    as (w0 & Hlisten & Hcl0 & _).
  destruct (SSDPProtocol.m_search codec (List.length (endpoints w))
              gateway_address timeout [datagram_args] w0)
    as [r1 w1] eqn:Hengine.
  rewrite (m_search_exits codec _ _ _ _ _ _ _ _ _ _ Hlisten Hengine).
  pose proof (engine_m_search_closes codec (List.length (endpoints w))
                gateway_address timeout [datagram_args] w0) as Hcl1.
  rewrite Hengine in Hcl1. simpl in Hcl1. rewrite Hcl0 in Hcl1.
  assert (Hclose : closes <$> endpoints (close (List.length (endpoints w)) w1).2
                   = (closes <$> endpoints w) ++ [1]).
  { simpl. apply list_eq. intros j. rewrite list_lookup_fmap.
    destruct (decide (List.length (endpoints w) = j)) as [<-|Hne].
    - rewrite list_lookup_alter_eq.
      assert (Hl : closes <$> endpoints w1 !! List.length (endpoints w) = Some 0).
      { rewrite <- list_lookup_fmap, Hcl1.
        rewrite lookup_app_r by (by rewrite length_fmap).
        by rewrite length_fmap, Nat.sub_diag. }
      rewrite lookup_app_r by (by rewrite length_fmap).
      rewrite length_fmap, Nat.sub_diag.
      destruct (endpoints w1 !! List.length (endpoints w)) as [e1|]; [|done].
      simpl in *. injection Hl as Heq. by rewrite Heq.
    - rewrite list_lookup_alter_ne by done.
      rewrite <- list_lookup_fmap, Hcl1.
      destruct (decide (j < List.length (endpoints w))%nat).
      + by rewrite !lookup_app_l by (by rewrite length_fmap).
      + rewrite !lookup_app_r by (rewrite length_fmap; lia).
        rewrite length_fmap.
        destruct (j - List.length (endpoints w))%nat eqn:Hj; [lia|done]. }
  destruct r1 as [packet|e|]; simpl; [done|done|].
  intros Hn. by destruct Hn.
Qed.

Lemma batches_closes rounds protocol gateway_address wait packet_args w :
  closes <$> endpoints
    (batches codec rounds protocol gateway_address wait packet_args w).2
  = closes <$> endpoints w.
Proof.
  revert packet_args w. induction rounds as [|rounds IH];
    intros packet_args w; destruct packet_args as [|d packet_args]; simpl;
    try done.
  unfold try_except, bind.
  pose proof (engine_m_search_closes codec protocol gateway_address wait
                (d :: take 1 packet_args) w) as Hcl.
  destruct (SSDPProtocol.m_search codec protocol gateway_address wait
              (d :: take 1 packet_args) w) as [[packet|e|] w1];
    simpl in *; [done| |done].
  destruct e; simpl; try done; by rewrite IH.
Qed.

(** The batch phase never closes the transport it binds, whichever way it
    ends. *)
Lemma _fuzzy_m_search_never_closes packet_generator lan_address
    gateway_address timeout ssdp_socket w :
  (next_setup w).1 = SetupOk ->
  closes <$> endpoints
    (_fuzzy_m_search codec packet_generator lan_address gateway_address
       timeout ssdp_socket w).2
  = (closes <$> endpoints w) ++ [0].
Proof.
  intros Hsetup.
  destruct (listen_ssdp_ok lan_address gateway_address ssdp_socket w Hsetup)
    as (w0 & Hlisten & Hcl0 & _).
  unfold _fuzzy_m_search, bind at 1. rewrite Hlisten.
  case_bool_decide; [done|]. by rewrite batches_closes.
Qed.

End ClosesOnce.

(** C10, as amended.  When the public [m_search] is called with a parameter
    set whose search target is null and the set-up of the transport by
    [listen_ssdp] succeeds, the caller sees the assertion error itself, not
    the [UPnPError] used for timeouts; the transport has been closed, once,
    and nothing was sent.  Only [TimeoutError] and [CancelledError] from the
    engine's search are turned into the [UPnPError] that names the gateway
    address and port. *)
Theorem null_search_target_surfaces_assertion
    (codec : Codec) (lan_address gateway_address : string)
    (datagram_args : OrderedDict) (timeout : Q) (ssdp_socket : option nat)
    (w : World) :
  st (construct codec _M_SEARCH datagram_args) = None ->
  (next_setup w).1 = SetupOk ->
  (exists w',
     m_search codec lan_address gateway_address datagram_args timeout
       ssdp_socket w = (Raise AssertionError, w')
     /\ close_count (List.length (endpoints w)) w' = Some 1
     /\ all_sent w' = all_sent w ++ [[]])
  /\ Raise (A := SSDPDatagram) AssertionError
     <> Raise (UPnPError (timed_out gateway_address))
  /\ forall args w0 transport w1 e w2,
       listen_ssdp lan_address gateway_address ssdp_socket w0
       = (Return (transport, transport, gateway_address, lan_address), w1) ->
       SSDPProtocol.m_search codec transport gateway_address timeout [args] w1
       = (Raise e, w2) ->
       (m_search codec lan_address gateway_address args timeout ssdp_socket
          w0).1
       = Raise (if bool_decide (e = TimeoutError \/ e = CancelledError)
                then UPnPError (timed_out gateway_address) else e).
Proof.
  intros Hnull Hsetup. split_and!.
  - destruct (listen_ssdp_ok lan_address gateway_address ssdp_socket w Hsetup)
      as (w0 & Hlisten & Hcl0 & Hsent0).
    destruct (engine_m_search_null codec (List.length (endpoints w))
                gateway_address timeout [datagram_args] w0)
      as (w1 & Hengine & Hsent1 & Hcl1).
    { by apply Exists_cons_hd. }
    rewrite (m_search_exits codec _ _ _ _ _ _ _ _ _ _ Hlisten Hengine).
    simpl. eexists. split; [done|]. split.
    + unfold close_count. simpl. rewrite list_lookup_alter_eq.
      assert (Hl : closes <$> endpoints w1 !! List.length (endpoints w) = Some 0).
      { rewrite <- list_lookup_fmap, Hcl1, Hcl0.
        rewrite lookup_app_r by (by rewrite length_fmap).
        by rewrite length_fmap, Nat.sub_diag. }
      destruct (endpoints w1 !! List.length (endpoints w)) as [e1|]; [|done].
      simpl in *. injection Hl as Heq. by rewrite Heq.
    + rewrite <- Hsent0, <- Hsent1. unfold all_sent. simpl.
      apply list_eq. intros i. rewrite !list_lookup_fmap.
      destruct (decide (List.length (endpoints w) = i)) as [<-|Hne].
      * rewrite list_lookup_alter_eq.
        by destruct (endpoints w1 !! List.length (endpoints w)).
      * by rewrite list_lookup_alter_ne.
  - done.
  - intros args w0 transport w1 e w2 Hlisten Hengine.
    by rewrite (m_search_exits codec _ _ _ _ _ _ _ _ _ _ Hlisten Hengine).
Qed.

Lemma null_search_target_surfaces_assertion_witness :
  exists w',
    m_search toy lan gateway no_target 1 None empty_world
    = (Raise AssertionError, w')
    /\ close_count 0 w' = Some 1
    /\ all_sent w' = [[]].
Proof.
  apply (null_search_target_surfaces_assertion toy lan gateway no_target 1 None
           empty_world).
  - reflexivity.
  - reflexivity.
Defined.

(** C10, as stated, fails: [listen_ssdp] runs before the [try] of
    [m_search], so when set-up fails, in creating the endpoint or in joining
    the group, the call with a null search target raises the [UPnPError]
    that wraps the set-up error and never reaches the assertion. *)
Lemma null_search_target_hidden_by_failed_setup :
  let refused :=
    mkWorld [] [] [] [EndpointFails (OSError "address in use")] [] in
  let unjoined :=
    mkWorld [] [] [] [JoinFails (OSError "no such device")] [] in
  st (construct toy _M_SEARCH no_target) = None
  /\ (m_search toy lan gateway no_target 1 None refused).1
     = Raise (UPnPError_of (OSError "address in use"))
  /\ (m_search toy lan gateway no_target 1 None unjoined).1
     = Raise (UPnPError_of (OSError "no such device"))
  /\ close_count 0 (m_search toy lan gateway no_target 1 None unjoined).2
     = Some 1%nat.
Proof. vm_compute. done. Qed.

(** ** Fuzzy discovery *)

(** C7.  Once the batch phase has returned a viable batch, the
    disambiguation phase searches for each candidate of that batch on its
    own, one at a time in the order of the batch and with a timeout of 3; it
    returns the first candidate whose search succeeds, with its reply, and
    when none succeeds it raises "failed to discover gateway", which is not
    the time-out error. *)
Theorem fuzzy_m_search_disambiguation
    (codec : Codec) (packet_generator : list OrderedDict)
    (lan_address gateway_address : string) (timeout : Q)
    (ssdp_socket : option nat) (w : World) (batch : list OrderedDict)
    (w1 : World) :
  consistent w ->
  _fuzzy_m_search codec packet_generator lan_address gateway_address timeout
    ssdp_socket w = (Return batch, w1) ->
  fuzzy_m_search codec packet_generator lan_address gateway_address timeout
    ssdp_socket w
  = first_success codec lan_address gateway_address batch w1
  /\ ((exists args packet,
         (fuzzy_m_search codec packet_generator lan_address gateway_address
            timeout ssdp_socket w).1 = Return (args, packet)
         /\ args ∈ batch)
      \/ (fuzzy_m_search codec packet_generator lan_address gateway_address
            timeout ssdp_socket w).1
         = Raise (UPnPError "failed to discover gateway"))
  /\ UPnPError "failed to discover gateway"
     <> UPnPError (timed_out gateway_address).
Proof.
  intros Hc Hbatch.
  destruct (_fuzzy_m_search_viable codec _ _ _ _ _ _ _ _ Hc Hbatch)
    as (Hc1 & Hall).
  destruct (try_each_first_success codec lan_address gateway_address batch w1
              Hc1 Hall) as (Heq & Hshape).
  assert (Hrun : fuzzy_m_search codec packet_generator lan_address
                   gateway_address timeout ssdp_socket w
                 = first_success codec lan_address gateway_address batch w1).
  { unfold fuzzy_m_search, bind. by rewrite Hbatch. }
  rewrite Hrun. split_and!; [done|done|].
  unfold timed_out. simpl. discriminate.
Qed.

Lemma fuzzy_m_search_disambiguation_witness :
  let w1 := (_fuzzy_m_search toy two_candidates lan gateway 30 None
               answering_world).2 in
  fuzzy_m_search toy two_candidates lan gateway 30 None answering_world
  = first_success toy lan gateway two_candidates w1
  /\ ((exists args packet,
         (fuzzy_m_search toy two_candidates lan gateway 30 None
            answering_world).1 = Return (args, packet)
         /\ args ∈ two_candidates)
      \/ (fuzzy_m_search toy two_candidates lan gateway 30 None
            answering_world).1
         = Raise (UPnPError "failed to discover gateway"))
  /\ UPnPError "failed to discover gateway" <> UPnPError (timed_out gateway).
Proof.
  intros w1.
  apply (fuzzy_m_search_disambiguation toy two_candidates lan gateway 30 None
           answering_world two_candidates w1).
  - apply fresh_loop_consistent.
  - vm_compute. reflexivity.
Defined.

(** C5, as amended.  With 10 candidate parameter sets, a total timeout of
    30 and batches of 2, the candidates are searched for as 5 batches of 2,
    each awaited for 3 time units: the wait of a batch is the total timeout
    divided by the number of candidates, 30 / 10. *)
Theorem ten_candidates_five_batches_of_three
    (codec : Codec) (packet_generator : list OrderedDict) :
  List.length packet_generator = 10%nat ->
  (batch_timeout 30 packet_generator == 3)%Q
  /\ exists b1 b2 b3 b4 b5,
       packet_generator = b1 ++ b2 ++ b3 ++ b4 ++ b5
       /\ Forall (fun b => List.length b = batch_size) [b1; b2; b3; b4; b5]
       /\ forall lan_address gateway_address ssdp_socket w,
            _fuzzy_m_search codec packet_generator lan_address gateway_address
              30 ssdp_socket w
            = (r <- listen_ssdp lan_address gateway_address ssdp_socket ;;
               let '(transport, protocol, gateway_address, lan_address) := r in
               search_batches codec protocol gateway_address
                 (batch_timeout 30 packet_generator) [b1; b2; b3; b4; b5]) w.
Proof.
  intros Hlen. split.
  - unfold batch_timeout. rewrite Hlen. reflexivity.
  - destruct packet_generator
      as [|d0 [|d1 [|d2 [|d3 [|d4 [|d5 [|d6 [|d7 [|d8 [|d9 [|]]]]]]]]]]];
      try discriminate Hlen.
    exists [d0; d1], [d2; d3], [d4; d5], [d6; d7], [d8; d9].
    split; [done|]. split; [by repeat constructor|].
    intros lan_address gateway_address ssdp_socket w.
    unfold _fuzzy_m_search, bind.
    destruct (listen_ssdp lan_address gateway_address ssdp_socket w)
      as [[[[[transport protocol] g] l]|e|] w0]; reflexivity.
Qed.

Lemma ten_candidates_five_batches_of_three_witness :
  (batch_timeout 30 ten_candidates == 3)%Q
  /\ exists b1 b2 b3 b4 b5,
       ten_candidates = b1 ++ b2 ++ b3 ++ b4 ++ b5
       /\ Forall (fun b => List.length b = batch_size) [b1; b2; b3; b4; b5]
       /\ forall lan_address gateway_address ssdp_socket w,
            _fuzzy_m_search toy ten_candidates lan_address gateway_address
              30 ssdp_socket w
            = (r <- listen_ssdp lan_address gateway_address ssdp_socket ;;
               let '(transport, protocol, gateway_address, lan_address) := r in
               search_batches toy protocol gateway_address
                 (batch_timeout 30 ten_candidates) [b1; b2; b3; b4; b5]) w.
Proof.
  apply (ten_candidates_five_batches_of_three toy ten_candidates).
  reflexivity.
Defined.

(** C5, as stated, fails: with 10 candidates and a total timeout of 30 that
    nothing answers, 5 batches are awaited and each of the 10 handles is
    scheduled after 3 time units, not after 2.5. *)
Lemma ten_candidates_do_not_wait_two_and_a_half :
  let w := (_fuzzy_m_search toy ten_candidates lan gateway 30 None
              empty_world).2 in
  futures w = replicate 5 CANCELLED
  /\ List.length (timers w) = 10%nat
  /\ Forall (fun h => (h_delay h == 3)%Q /\ ~ (h_delay h == 5 # 2)%Q) (timers w).
Proof.
  intros w. split; [by vm_compute|]. split; [by vm_compute|].
  set (ts := timers w). vm_compute in ts. subst ts.
  repeat (apply Forall_cons_2; [split; [reflexivity|discriminate]|]).
  apply Forall_nil_2.
Qed.

(** ** The transport *)

(** C2, on the code: [fuzzy_m_search] binds a transport of its own for the
    batch phase and never closes it, neither when it returns nor when every
    batch times out; the transports of the single searches it runs
    afterwards are closed once each. *)
Lemma fuzzy_m_search_leaves_transport_open :
  let answered :=
    fuzzy_m_search toy two_candidates lan gateway 30 None answering_world in
  let silent :=
    fuzzy_m_search toy two_candidates lan gateway 30 None empty_world in
  answered.1 = Return (params wan_ip, ok_reply wan_ip)
  /\ close_count 0 answered.2 = Some 0%nat
  /\ close_count 1 answered.2 = Some 1%nat
  /\ close_count 2 answered.2 = Some 1%nat
  /\ silent.1 = Raise (UPnPError (timed_out gateway))
  /\ close_count 0 silent.2 = Some 0%nat.
Proof. vm_compute. done. Qed.

(** * Further properties of the code *)

(** ** What a search does before it awaits *)

Section BeforeAwait.

Import SSDPProtocol.

Context (codec : Codec).

Lemma world_eta w :
  mkWorld (futures w) (timers w) (endpoints w) (setups w) (arrivals w) = w.
Proof. by destruct w. Qed.

Lemma endpoint_eta e :
  mkEndpoint (multicast_address e) (lan_address e) (sock e) (group e) (ttl e)
    (_pending_searches e) (sent e) (closes e) = e.
Proof. by destruct e. Qed.

Lemma send_many_m_searches_exact self address packets w :
  send_many_m_searches codec self address packets w
  = (Return (),
     with_endpoints
       (alter (fun e => with_sent (sent e ++ requests codec address packets) e)
          self (endpoints w)) w).
Proof.
  revert w. induction packets as [|packet packets IH]; intros w; simpl.
  - f_equal. unfold with_endpoints. rewrite list_alter_id; [by rewrite world_eta|].
    intros e. unfold with_sent, requests. simpl. rewrite app_nil_r.
    apply endpoint_eta.
  - unfold bind. simpl. rewrite IH. f_equal. unfold with_endpoints. simpl.
    f_equal. rewrite list_alter_alter_eq. apply list_alter_ext; [|done].
    intros e _. unfold with_sent, requests. simpl.
    by rewrite <- app_assoc.
Qed.

Lemma records_cons address fut h0 datagram datagrams :
  records codec address fut h0 (datagram :: datagrams)
  = (address, target_of codec datagram, fut, h0)
    :: records codec address fut (S h0) datagrams.
Proof.
  unfold records. rewrite imap_cons. rewrite Nat.add_0_r. f_equal.
  apply imap_ext. intros i d _. simpl. do 2 f_equal. lia.
Qed.

(** The [for] loop on requests that all have a search target: one handle
    and one record per request, in order. *)
Lemma register_exact self address timeout fut datagrams packets w :
  Forall (carries_st codec) datagrams ->
  register codec self address timeout fut datagrams packets w
  = (Return (packets ++ (construct codec _M_SEARCH <$> datagrams)),
     with_endpoints
       (alter (fun e =>
                 with_pending
                   (_pending_searches e
                    ++ records codec address fut (List.length (timers w))
                         datagrams) e)
          self (endpoints w))
       (with_timers
          (timers w
           ++ replicate (List.length datagrams)
                (mkHandle timeout fut false false)) w)).
Proof.
  intros Hall. revert packets w.
  induction Hall as [|datagram datagrams [s Hs] Hall IH]; intros packets w;
    simpl.
  - rewrite app_nil_r. unfold ret. f_equal.
    unfold with_endpoints, with_timers. simpl. rewrite app_nil_r.
    rewrite list_alter_id; [by rewrite world_eta|].
    intros e. unfold with_pending. rewrite app_nil_r. apply endpoint_eta.
  - rewrite Hs. unfold bind at 1. simpl. unfold bind at 1. simpl.
    rewrite IH. rewrite <- app_assoc. simpl. f_equal.
    unfold with_endpoints, with_timers. simpl. f_equal.
    + by rewrite <- app_assoc.
    + rewrite list_alter_alter_eq. apply list_alter_ext; [|done].
      intros e _. unfold with_pending. simpl. f_equal.
      rewrite records_cons, length_app, <- app_assoc. simpl.
      unfold target_of. rewrite Hs. simpl.
      by rewrite Nat.add_1_r.
Qed.

End BeforeAwait.

Section EngineRuns.

Import SSDPProtocol.

Context (codec : Codec).

Lemma m_search_awaits self address timeout datagrams w :
  Forall (carries_st codec) datagrams ->
  m_search codec self address timeout datagrams w
  = await codec (List.length (futures w))
      (awaiting codec self address timeout datagrams w).
Proof.
  intros Hall. unfold m_search, bind at 1, new_future. simpl.
  unfold bind at 1. rewrite (register_exact codec) by done.
  unfold bind at 1. rewrite send_many_m_searches_exact. simpl.
  f_equal. unfold awaiting, with_endpoints, with_timers, with_futures. simpl.
  f_equal. rewrite list_alter_alter_eq. by apply list_alter_ext.
Qed.

Lemma awaiting_lookup self address timeout datagrams w e :
  endpoints w !! self = Some e ->
  endpoints (awaiting codec self address timeout datagrams w) !! self
  = Some (with_sent
            (sent e
             ++ requests codec address (construct codec _M_SEARCH <$> datagrams))
            (with_pending
               (_pending_searches e
                ++ records codec address (List.length (futures w))
                     (List.length (timers w)) datagrams) e)).
Proof.
  intros He. unfold awaiting. simpl. by rewrite list_lookup_alter_eq, He.
Qed.

Lemma cancel_lookup g (fs : Futures) f :
  cancel g fs !! f = fs !! f
  \/ (fs !! f = Some PENDING /\ cancel g fs !! f = Some CANCELLED).
Proof.
  unfold cancel. destruct (future_done fs g) eqn:Hd; [by left|].
  destruct (decide (f = g)) as [->|Hne]; [|left; by rewrite list_lookup_insert_ne].
  unfold future_done in Hd. destruct (fs !! g) as [s|] eqn:Hl.
  - destruct s; try discriminate. right. split; [done|].
    apply list_lookup_insert_eq. by eapply lookup_lt_Some.
  - left. apply lookup_ge_None. rewrite length_insert.
    by apply lookup_ge_None.
Qed.

(** Handles coming due can only cancel. *)
Lemma run_timer_future h w f :
  futures (run_timer h w) !! f = futures w !! f
  \/ (futures w !! f = Some PENDING
      /\ futures (run_timer h w) !! f = Some CANCELLED).
Proof.
  unfold run_timer. destruct (timers w !! h) as [hd|]; [|by left].
  destruct (live hd); [|by left]. simpl. apply cancel_lookup.
Qed.

Lemma run_timers_from_future hs w f :
  futures (foldl (fun w h => run_timer h w) w hs) !! f = futures w !! f
  \/ (futures w !! f = Some PENDING
      /\ futures (foldl (fun w h => run_timer h w) w hs) !! f = Some CANCELLED).
Proof.
  revert w. induction hs as [|h hs IH]; intros w; simpl; [by left|].
  destruct (IH (run_timer h w)) as [Heq|[Hp Hc]];
    destruct (run_timer_future h w f) as [Heq'|[Hp' Hc']].
  - left. congruence.
  - right. split; [done|]. congruence.
  - right. split; [congruence|done].
  - congruence.
Qed.


(** A pending future with a handle, awaited while nothing arrives, is
    cancelled by its timeout. *)
Lemma suspend_quiet fut w :
  consistent w -> futures w !! fut = Some PENDING ->
  (exists h hd, timers w !! h = Some hd /\ h_future hd = fut) ->
  suspend codec fut [] w = (Raise CancelledError, run_timers w)
  /\ futures (run_timers w) !! fut = Some CANCELLED.
Proof.
  intros Hc Hp (h & hd & Hl & Hf). simpl.
  unfold result at 1. rewrite Hp.
  pose proof (run_timers_done w h hd Hc Hl) as Hdone. rewrite Hf in Hdone.
  unfold run_timers in *.
  destruct (run_timers_from_future (seq 0 (List.length (timers w))) w fut)
    as [Heq|[_ Hcan]].
  - unfold future_done in Hdone. rewrite Heq, Hp in Hdone. done.
  - unfold result. by rewrite Hcan.
Qed.

Lemma awaiting_consistent self address timeout datagrams w :
  consistent w -> Forall (carries_st codec) datagrams ->
  consistent (awaiting codec self address timeout datagrams w).
Proof.
  intros Hc Hall.
  destruct (register_carries codec self address timeout
              (List.length (futures w)) datagrams []
              (with_futures (futures w ++ [PENDING]) w))
    as (packets & w1 & Hrun & Hc1 & _).
  { by apply new_future_consistent. }
  { simpl. rewrite length_app. simpl. lia. }
  { done. }
  rewrite (register_exact codec) in Hrun by done.
  injection Hrun as _ <-.
  pose proof (send_many_m_searches_spec codec self address
                (construct codec _M_SEARCH <$> datagrams)
                (with_endpoints
                   (alter (fun e =>
                      with_pending
                        (_pending_searches e
                         ++ records codec address (List.length (futures w))
                              (List.length (timers (with_futures
                                 (futures w ++ [PENDING]) w))) datagrams) e)
                      self (endpoints (with_futures (futures w ++ [PENDING]) w)))
                   (with_timers
                      (timers (with_futures (futures w ++ [PENDING]) w)
                       ++ replicate (List.length datagrams)
                            (mkHandle timeout (List.length (futures w))
                               false false))
                      (with_futures (futures w ++ [PENDING]) w))))
    as (w2 & Hsend & _ & _ & _ & _ & Hc2 & _).
  rewrite send_many_m_searches_exact in Hsend. injection Hsend as <-.
  specialize (Hc2 Hc1). revert Hc2.
  apply consistent_same; [done|done|]. unfold awaiting. simpl.
  rewrite list_alter_alter_eq. by apply list_alter_ext.
Qed.

(** A search whose requests all have a search target, awaited while
    nothing arrives, times out. *)
Lemma engine_m_search_quiet self address timeout datagrams w :
  consistent w -> datagrams <> [] -> Forall (carries_st codec) datagrams ->
  default [] (head (arrivals w)) = [] ->
  m_search codec self address timeout datagrams w
  = (Raise CancelledError,
     run_timers
       (with_arrivals (tail (arrivals w))
          (awaiting codec self address timeout datagrams w)))
  /\ futures
       (run_timers
          (with_arrivals (tail (arrivals w))
             (awaiting codec self address timeout datagrams w)))
       !! List.length (futures w) = Some CANCELLED.
Proof.
  intros Hc Hne Hall Hquiet. rewrite m_search_awaits by done.
  pose proof (awaiting_consistent self address timeout datagrams w Hc Hall)
    as Hca.
  assert (Hstep :
    await codec (List.length (futures w))
      (awaiting codec self address timeout datagrams w)
    = suspend codec (List.length (futures w)) []
        (with_arrivals (tail (arrivals w))
           (awaiting codec self address timeout datagrams w))).
  { unfold await. change (arrivals (awaiting codec self address timeout
                                      datagrams w)) with (arrivals w).
    destruct (arrivals w) as [|events later] eqn:Ha; simpl in *.
    - f_equal. unfold awaiting, with_arrivals, with_endpoints, with_timers,
        with_futures. simpl. by rewrite Ha.
    - by rewrite Hquiet. }
  rewrite Hstep. apply suspend_quiet.
  - revert Hca. by apply consistent_same.
  - simpl. rewrite lookup_app_r by done. by rewrite Nat.sub_diag.
  - destruct datagrams as [|d datagrams]; [done|].
    exists (List.length (timers w)).
    exists (mkHandle timeout (List.length (futures w)) false false).
    split; [|reflexivity]. simpl.
    rewrite lookup_app_r by done. by rewrite Nat.sub_diag.
Qed.

End EngineRuns.

(** ** A future nobody refers to *)

Section Unreferenced.

Import SSDPProtocol.

Context (codec : Codec).

Lemma cancel_other g (fs : Futures) f : g <> f -> cancel g fs !! f = fs !! f.
Proof.
  intros Hne. unfold cancel. destruct (future_done fs g); [done|].
  by rewrite list_lookup_insert_ne.
Qed.

Lemma run_timer_unreferenced fut h w :
  unreferenced fut w -> unreferenced fut (run_timer h w).
Proof.
  intros (Hp & Hh & Hr). split_and!.
  - unfold run_timer. destruct (timers w !! h) as [hd|] eqn:Hl; [|done].
    destruct (live hd); [|done]. simpl. rewrite cancel_other; [done|].
    by eapply Hh.
  - intros h' hd' Hl'.
    destruct (run_timer_lookup h w h') as [Heq|(-> & hd & Hold & _ & Hnew & _)].
    + rewrite Heq in Hl'. by eapply Hh.
    + rewrite Hnew in Hl'. inversion Hl'; subst hd'. simpl. by eapply Hh.
  - intros i e t. rewrite run_timer_endpoints. apply Hr.
Qed.

Lemma callback_unreferenced fut self address packet w :
  unreferenced fut w ->
  unreferenced fut (_callback_m_search_ok self address packet w).
Proof.
  intros (Hp & Hh & Hr).
  destruct (endpoints w !! self) as [e|] eqn:He;
    [|by rewrite callback_absent].
  split_and!.
  - rewrite (callback_futures self address packet w e He).
    rewrite after_future_unmatched; [done|].
    unfold matched_futures. intros (t & Heq & Ht)%list_elem_of_fmap.
    apply list_elem_of_filter in Ht as [_ Ht].
    by apply (Hr self e t He Ht).
  - intros h hd' Hl. rewrite (callback_timers self address packet w e He) in Hl.
    destruct (after_timer address packet (futures w) (timers w)
                (_pending_searches e) h) as [Heq|(hd & Hold & Hnew & _)].
    + rewrite Heq in Hl. by eapply Hh.
    + rewrite Hnew in Hl. inversion Hl; subst hd'. simpl. by eapply Hh.
  - intros i e' t Hi Ht. destruct (decide (i = self)) as [->|Hne].
    + rewrite (callback_endpoint self address packet w e He) in Hi.
      inversion Hi; subst e'. simpl in Ht. apply (Hr self e t He).
      eapply elem_of_sublist; [done|apply after_tmp_sublist].
    + rewrite callback_other_endpoint in Hi by done. by eapply Hr.
Qed.

Lemma run_event_unreferenced fut ev w :
  unreferenced fut w -> unreferenced fut (run_event codec ev w).
Proof.
  intros Hu. destruct ev as [tr data addr|h]; simpl.
  - destruct (endpoints w !! tr); [|done].
    case_bool_decide; [|done].
    unfold datagram_received. destruct (endpoints w !! tr); [|done].
    case_bool_decide; [done|].
    destruct (decode codec data); [|done].
    case_bool_decide; [|done].
    by apply callback_unreferenced.
  - by apply run_timer_unreferenced.
Qed.

Lemma run_timers_unreferenced fut w :
  unreferenced fut w -> unreferenced fut (run_timers w).
Proof.
  unfold run_timers. generalize (seq 0 (List.length (timers w))).
  intros hs. revert w. induction hs as [|h hs IH]; intros w Hu; simpl; [done|].
  by apply IH, run_timer_unreferenced.
Qed.

(** Nothing the loop runs resolves such a future: awaiting it never ends. *)
Lemma suspend_unreferenced fut events w :
  unreferenced fut w -> (suspend codec fut events w).1 = Suspended.
Proof.
  revert w. induction events as [|ev events IH]; intros w Hu; simpl.
  - pose proof Hu as (Hp & _). unfold result at 1. rewrite Hp.
    destruct (run_timers_unreferenced fut w Hu) as (Hp' & _).
    unfold result. by rewrite Hp'.
  - pose proof Hu as (Hp & _). unfold result at 1. rewrite Hp.
    by apply IH, run_event_unreferenced.
Qed.

Lemma awaiting_nothing_unreferenced self address timeout w :
  consistent w ->
  unreferenced (List.length (futures w))
    (awaiting codec self address timeout [] w).
Proof.
  intros Hc. split_and!; simpl.
  - rewrite lookup_app_r by done. by rewrite Nat.sub_diag.
  - intros h hd. rewrite app_nil_r. intros Hl.
    pose proof (handle_target w Hc h hd Hl). lia.
  - intros i e' t Hi Ht.
    eapply alter_frame in Hi as (e & Hi & Hp).
    2:{ intros e0. simpl. by rewrite app_nil_r. }
    rewrite Hp in Ht.
    destruct (pending_linked w Hc i e t Hi Ht) as (hd & Hl & Hf).
    pose proof (handle_target w Hc _ hd Hl). lia.
Qed.

End Unreferenced.

(** ** The engine *)

(** X1.  [send_many_m_searches] hands the transport exactly one datagram per
    packet, in the order of the packets, each addressed to port 1900 of the
    given address; it touches no future, no handle, no registry and no other
    transport. *)
Theorem send_many_m_searches_sends_each_once
    (codec : Codec) (self : nat) (address : string)
    (packets : list SSDPDatagram) (w : World) (e : Endpoint) :
  endpoints w !! self = Some e ->
  let rw := SSDPProtocol.send_many_m_searches codec self address packets w in
  rw.1 = Return ()
  /\ sent_on self rw.2
     = Some (sent e
             ++ ((fun packet => (encode codec packet, (address, 1900%Z)))
                   <$> packets))
  /\ futures rw.2 = futures w /\ timers rw.2 = timers w
  /\ registry self rw.2 = registry self w
  /\ close_count self rw.2 = close_count self w
  /\ forall i, i <> self -> endpoints rw.2 !! i = endpoints w !! i.
Proof.
  intros He rw. unfold rw. rewrite send_many_m_searches_exact. simpl.
  unfold sent_on, registry, close_count. simpl.
  rewrite !list_lookup_alter_eq, He. simpl. split_and!; try done.
  intros i Hne. by rewrite list_lookup_alter_ne.
Qed.

Lemma send_many_m_searches_sends_each_once_witness :
  let rw :=
    SSDPProtocol.send_many_m_searches toy 0 gateway
      [toy_construct _M_SEARCH (params wan_ip);
       toy_construct _M_SEARCH (params wan_ppp)]
      (engine_world [] [] []) in
  rw.1 = Return ()
  /\ sent_on 0 rw.2
     = Some ([]
             ++ ((fun packet => (encode toy packet, (gateway, 1900%Z)))
                   <$> [toy_construct _M_SEARCH (params wan_ip);
                        toy_construct _M_SEARCH (params wan_ppp)]))
  /\ futures rw.2 = [] /\ timers rw.2 = []
  /\ registry 0 rw.2 = registry 0 (engine_world [] [] [])
  /\ close_count 0 rw.2 = close_count 0 (engine_world [] [] [])
  /\ forall i, i <> 0%nat ->
       endpoints rw.2 !! i = endpoints (engine_world [] [] []) !! i.
Proof.
  apply (send_many_m_searches_sends_each_once toy 0 gateway
           [toy_construct _M_SEARCH (params wan_ip);
            toy_construct _M_SEARCH (params wan_ppp)]
           (engine_world [] [] []) (bound [])).
  reflexivity.
Defined.


Lemma bound_loop_consistent ss arrivals :
  consistent (mkWorld [] [] [bound []] ss arrivals).
Proof.
  split; simpl.
  - intros [|i] e t; simpl; [|by rewrite lookup_nil].
    intros [= <-] Ht. by apply elem_of_nil in Ht.
  - intros h hd. by rewrite lookup_nil.
  - intros h hd. by rewrite lookup_nil.
Qed.


(** X3.  A search called with no request at all never ends: its future has
    no timeout handle and no record, so nothing the loop runs, neither a
    datagram nor a handle coming due, resolves it. *)
Theorem m_search_without_requests_never_resumes
    (codec : Codec) (self : nat) (address : string) (timeout : Q) (w : World) :
  consistent w ->
  (SSDPProtocol.m_search codec self address timeout [] w).1 = Suspended.
Proof.
  intros Hc. rewrite m_search_awaits by constructor.
  pose proof (awaiting_nothing_unreferenced codec self address timeout w Hc)
    as Hu.
  unfold SSDPProtocol.await.
  change (arrivals (awaiting codec self address timeout [] w))
    with (arrivals w).
  destruct (arrivals w) as [|events later].
  - by apply suspend_unreferenced.
  - apply suspend_unreferenced.
    destruct Hu as (Hp & Hh & Hr). by split_and!.
Qed.

Lemma m_search_without_requests_never_resumes_witness :
  (SSDPProtocol.m_search toy 0 gateway 1 []
     (mkWorld [] [] [bound []] []
        [[Datagram 0 (reply wan_ip) (gateway, 1900%Z); Timer 0]])).1
  = Suspended.
Proof.
  apply (m_search_without_requests_never_resumes toy 0 gateway 1
           (mkWorld [] [] [bound []] []
              [[Datagram 0 (reply wan_ip) (gateway, 1900%Z); Timer 0]])).
  apply bound_loop_consistent.
Defined.

(** ** More on the matching pass *)

Section PassMore.

Import SSDPProtocol.

Context (address : string) (packet : SSDPDatagram) (fs : Futures) (ts : Timers).

Local Abbreviation after :=
  (foldr (visit address packet) (mkPass [] [] fs ts)).

(** Only records the reply does not match are put back. *)
Lemma after_tmp_unmatched pending t :
  t ∈ tmp (after pending) -> matches address packet t = false.
Proof.
  induction pending as [|t0 pending IH]; simpl.
  - intros Hin. by apply elem_of_nil in Hin.
  - rewrite visit_tmp. destruct (matches address packet t0) eqn:Hm; [done|].
    case_bool_decide; [|done].
    intros [Hin|Hin%list_elem_of_singleton]%elem_of_app; [by apply IH|].
    by subst.
Qed.

(** The handle of every matching record is cancelled. *)
Lemma after_matching_cancelled pending t hd :
  t ∈ pending -> matches address packet t = true ->
  ts !! ps_handle t = Some hd ->
  p_timers (after pending) !! ps_handle t
  = Some (mkHandle (h_delay hd) (h_future hd) true (h_ran hd)).
Proof.
  intros Hin Hm Hl. induction pending as [|t0 pending IH]; simpl.
  - by apply elem_of_nil in Hin.
  - rewrite visit_timers.
    assert (Hcases : p_timers (after pending) !! ps_handle t = Some hd
              \/ p_timers (after pending) !! ps_handle t
                 = Some (mkHandle (h_delay hd) (h_future hd) true (h_ran hd))).
    { destruct (after_timer address packet fs ts pending (ps_handle t))
        as [Heq|(hd0 & Hold & Hnew & _)].
      - left. congruence.
      - right. rewrite Hl in Hold. by inversion Hold; subst. }
    apply elem_of_cons in Hin as [<-|Hin].
    + rewrite Hm. unfold Handle_cancel.
      destruct Hcases as [Hc|Hc]; rewrite Hc; simpl;
        (rewrite list_lookup_insert_eq; [done|by eapply lookup_lt_Some]).
    + specialize (IH Hin).
      destruct (matches address packet t0); [|done].
      destruct (Handle_cancel_lookup (ps_handle t0) (p_timers (after pending))
                  (ps_handle t)) as [->|(Heq & hd0 & Hold & Hnew)]; [done|].
      rewrite Heq, Hnew. rewrite <- Heq, IH in Hold.
      by inversion Hold; subst.
Qed.

(** A pass over records the reply does not match changes nothing. *)
Lemma after_no_match pending :
  (forall t, t ∈ pending -> matches address packet t = false) ->
  after pending = mkPass (rev pending) [] fs ts.
Proof.
  induction pending as [|t0 pending IH]; simpl; intros Hno; [done|].
  rewrite IH by (intros t Ht; apply Hno; by right).
  unfold visit. rewrite (Hno t0) by (by left). done.
Qed.

End PassMore.

Section CallbackMore.

Import SSDPProtocol.

Context (codec : Codec).

Lemma callback_no_match self address packet w e :
  endpoints w !! self = Some e ->
  (forall t, t ∈ _pending_searches e -> matches address packet t = false) ->
  _callback_m_search_ok self address packet w = w.
Proof.
  intros He Hno. unfold _callback_m_search_ok. rewrite He, match_pass_foldr.
  rewrite after_no_match by done. simpl. rewrite rev_involutive.
  unfold with_endpoints, with_timers, with_futures, with_pending. simpl.
  rewrite endpoint_eta, list_insert_id by done. apply world_eta.
Qed.

Lemma callback_leaves_no_match self address packet w e' :
  endpoints (_callback_m_search_ok self address packet w) !! self = Some e' ->
  forall t, t ∈ _pending_searches e' -> matches address packet t = false.
Proof.
  destruct (endpoints w !! self) as [e|] eqn:He.
  - rewrite (callback_endpoint self address packet w e He).
    intros [= <-] t Ht. simpl in Ht.
    apply (after_tmp_unmatched address packet (futures w) (timers w)
             (_pending_searches e)).
    by apply list_elem_of_In, in_rev, list_elem_of_In.
  - rewrite callback_absent by done. by rewrite He.
Qed.

Lemma callback_idempotent self address packet w :
  _callback_m_search_ok self address packet
    (_callback_m_search_ok self address packet w)
  = _callback_m_search_ok self address packet w.
Proof.
  destruct (endpoints (_callback_m_search_ok self address packet w) !! self)
    as [e'|] eqn:He'.
  - eapply callback_no_match; [done|].
    by eapply callback_leaves_no_match.
  - by apply callback_absent.
Qed.

Lemma datagram_received_cases self data addr w :
  datagram_received codec self data addr w = w
  \/ exists packet,
       datagram_received codec self data addr w
       = _callback_m_search_ok self addr.1 packet w.
Proof.
  unfold datagram_received. destruct (endpoints w !! self); [|by left].
  case_bool_decide; [by left|].
  destruct (decode codec data) as [packet|]; [|by left].
  case_bool_decide; [|by left]. right. by exists packet.
Qed.

End CallbackMore.

(** X4.  Every record a reply matches leaves the registry in that pass and
    has its timeout handle cancelled; no record left in the registry matches
    the reply. *)
Theorem matched_records_removed_and_cancelled
    (self : nat) (address : string) (packet : SSDPDatagram) (w : World)
    (e : Endpoint) (t : PendingSearch) (hd : Handle) :
  endpoints w !! self = Some e ->
  t ∈ _pending_searches e ->
  SSDPProtocol.matches address packet t = true ->
  timers w !! ps_handle t = Some hd ->
  let w' := SSDPProtocol._callback_m_search_ok self address packet w in
  timers w' !! ps_handle t
  = Some (mkHandle (h_delay hd) (h_future hd) true (h_ran hd))
  /\ exists e', endpoints w' !! self = Some e'
       /\ (t ∉ _pending_searches e')
       /\ forall t', t' ∈ _pending_searches e' ->
            SSDPProtocol.matches address packet t' = false.
Proof.
  intros He Ht Hm Hl w'. unfold w'. split.
  - rewrite (callback_timers self address packet w e He).
    by apply after_matching_cancelled.
  - pose proof (callback_endpoint self address packet w e He) as He'.
    eexists. split; [exact He'|].
    pose proof (callback_leaves_no_match self address packet w _ He') as Hno.
    split; [|exact Hno].
    intros Hin. specialize (Hno t Hin). congruence.
Qed.

Lemma matched_records_removed_and_cancelled_witness :
  let w := engine_world [(gateway, wan_ppp, 0, 0); (gateway, wan_ip, 0, 1)]
             [PENDING] [timer 0; timer 0] in
  let w' := SSDPProtocol._callback_m_search_ok 0 gateway (ok_reply wan_ip) w in
  timers w' !! 1 = Some (mkHandle 1 0 true false)
  /\ exists e', endpoints w' !! 0 = Some e'
       /\ ((gateway, wan_ip, 0, 1) ∉ _pending_searches e')
       /\ forall t', t' ∈ _pending_searches e' ->
            SSDPProtocol.matches gateway (ok_reply wan_ip) t' = false.
Proof.
  apply (matched_records_removed_and_cancelled 0 gateway (ok_reply wan_ip)
           (engine_world [(gateway, wan_ppp, 0, 0); (gateway, wan_ip, 0, 1)]
              [PENDING] [timer 0; timer 0])
           (bound [(gateway, wan_ppp, 0, 0); (gateway, wan_ip, 0, 1)])
           (gateway, wan_ip, 0, 1) (timer 0)).
  - reflexivity.
  - apply list_elem_of_further, list_elem_of_here.
  - reflexivity.
  - reflexivity.
Defined.

(** X5.  Processing the same reply a second time changes nothing: after a
    pass no record matches the reply any more, so a duplicate datagram leaves
    registry, futures and handles exactly as the first left them. *)
Theorem repeated_reply_changes_nothing
    (self : nat) (address : string) (packet : SSDPDatagram) (w : World) :
  SSDPProtocol._callback_m_search_ok self address packet
    (SSDPProtocol._callback_m_search_ok self address packet w)
  = SSDPProtocol._callback_m_search_ok self address packet w.
Proof. apply callback_idempotent. Qed.

(** X6.  [datagram_received] leaves the world exactly as it is when the
    datagram comes from the engine's own address, when it does not decode,
    when it decodes to something that is not an OK reply, or when it is an OK
    reply that no pending search matches (another address, or another
    search target while the pending one is not "upnp:rootdevice"). *)
Theorem unsolicited_datagram_ignored
    (codec : Codec) (self : nat) (data : bytes) (addr : string * Z)
    (w : World) (e : Endpoint) :
  endpoints w !! self = Some e ->
  addr.1 = lan_address e
  \/ decode codec data = None
  \/ (exists packet, decode codec data = Some packet
        /\ (_packet_type packet <> _OK
            \/ forall t, t ∈ _pending_searches e ->
                 ps_address t <> addr.1
                 \/ (st packet <> Some (ps_st t)
                     /\ ps_st t <> "upnp:rootdevice"))) ->
  SSDPProtocol.datagram_received codec self data addr w = w.
Proof.
  intros He Hcases. unfold SSDPProtocol.datagram_received. rewrite He.
  case_bool_decide as Hown; [done|].
  destruct Hcases as [Hc|[Hc|(packet & Hdec & Hc)]]; [done|by rewrite Hc|].
  rewrite Hdec. case_bool_decide as Hok; [|done].
  destruct Hc as [Hc|Hc]; [done|].
  apply (callback_no_match self addr.1 packet w e He).
  intros t Ht. unfold SSDPProtocol.matches.
  destruct (Hc t Ht) as [Ha|[Hs Hr]].
  - rewrite bool_decide_eq_false_2; [done|]. congruence.
  - rewrite (bool_decide_eq_false_2 (Some (ps_st t) = st packet)) by congruence.
    rewrite (bool_decide_eq_false_2 (ps_st t = "upnp:rootdevice")) by done.
    apply andb_false_r.
Qed.

Lemma unsolicited_datagram_ignored_witness :
  SSDPProtocol.datagram_received toy 0 (reply wan_ppp) ("192.168.1.7", 1900%Z)
    (engine_world [(gateway, wan_ppp, 0, 0)] [PENDING] [timer 0])
  = engine_world [(gateway, wan_ppp, 0, 0)] [PENDING] [timer 0].
Proof.
  apply (unsolicited_datagram_ignored toy 0 (reply wan_ppp)
           ("192.168.1.7", 1900%Z)
           (engine_world [(gateway, wan_ppp, 0, 0)] [PENDING] [timer 0])
           (bound [(gateway, wan_ppp, 0, 0)])).
  - reflexivity.
  - right. right. exists (ok_reply wan_ppp). split; [reflexivity|].
    right. intros t Ht. left.
    apply list_elem_of_singleton in Ht. subst t. discriminate.
Defined.

Section CallbackFrame.

Import SSDPProtocol.

Lemma callback_frame self address packet w :
  let w' := _callback_m_search_ok self address packet w in
  List.length (futures w') = List.length (futures w)
  /\ List.length (timers w') = List.length (timers w)
  /\ all_sent w' = all_sent w
  /\ closes <$> endpoints w' = closes <$> endpoints w
  /\ setups w' = setups w /\ arrivals w' = arrivals w
  /\ (forall i, i <> self -> endpoints w' !! i = endpoints w !! i)
  /\ (forall e', endpoints w' !! self = Some e' ->
        exists e, endpoints w !! self = Some e
          /\ _pending_searches e' `sublist_of` _pending_searches e)
  /\ (forall h hd', timers w' !! h = Some hd' ->
        exists hd, timers w !! h = Some hd /\ h_delay hd' = h_delay hd
          /\ h_future hd' = h_future hd /\ h_ran hd' = h_ran hd).
Proof.
  intros w'. unfold w'.
  destruct (endpoints w !! self) as [e|] eqn:He.
  2:{ rewrite callback_absent by done. split_and!; try done.
      - intros e'. by rewrite He.
      - intros h hd' Hl. by exists hd'. }
  split_and!.
  - apply callback_futures_length.
  - rewrite (callback_timers self address packet w e He).
    apply after_timers_length.
  - unfold all_sent. rewrite (callback_endpoints self address packet w e He).
    apply list_eq. intros j. rewrite !list_lookup_fmap.
    destruct (decide (self = j)) as [<-|Hne].
    + rewrite list_lookup_insert_eq by (by eapply lookup_lt_Some).
      by rewrite He.
    + by rewrite list_lookup_insert_ne.
  - apply callback_closes.
  - unfold _callback_m_search_ok. rewrite He.
    by destruct (match_pass _ _ _ _ _) as [[? ?] ?].
  - unfold _callback_m_search_ok. rewrite He.
    by destruct (match_pass _ _ _ _ _) as [[? ?] ?].
  - intros i Hne. by apply callback_other_endpoint.
  - intros e'. rewrite (callback_endpoint self address packet w e He).
    intros [= <-]. exists e. split; [done|]. simpl. apply after_tmp_sublist.
  - intros h hd' Hl. rewrite (callback_timers self address packet w e He) in Hl.
    destruct (after_timer address packet (futures w) (timers w)
                (_pending_searches e) h) as [Heq|(hd & Hold & Hnew & _)].
    + rewrite Heq in Hl. by exists hd'.
    + rewrite Hnew in Hl. inversion Hl; subst hd'. by exists hd.
Qed.

End CallbackFrame.

(** X7.  Whatever datagram arrives, [datagram_received] sends nothing,
    closes nothing, creates no future and schedules no handle; it leaves the
    registries of the other protocol instances alone, adds no record to its
    own and keeps the order of those that stay; a resolved future keeps its
    state, and a handle keeps its delay and its future and is not run. *)
Theorem datagram_received_frame
    (codec : Codec) (self : nat) (data : bytes) (addr : string * Z)
    (w : World) :
  let w' := SSDPProtocol.datagram_received codec self data addr w in
  List.length (futures w') = List.length (futures w)
  /\ List.length (timers w') = List.length (timers w)
  /\ all_sent w' = all_sent w
  /\ closes <$> endpoints w' = closes <$> endpoints w
  /\ setups w' = setups w /\ arrivals w' = arrivals w
  /\ (forall i, i <> self -> endpoints w' !! i = endpoints w !! i)
  /\ (forall e', endpoints w' !! self = Some e' ->
        exists e, endpoints w !! self = Some e
          /\ _pending_searches e' `sublist_of` _pending_searches e)
  /\ (forall f s, futures w !! f = Some s -> resolved s = true ->
        futures w' !! f = Some s)
  /\ (forall h hd', timers w' !! h = Some hd' ->
        exists hd, timers w !! h = Some hd /\ h_delay hd' = h_delay hd
          /\ h_future hd' = h_future hd /\ h_ran hd' = h_ran hd).
Proof.
  intros w'. unfold w'.
  destruct (datagram_received_cases codec self data addr w)
    as [->|(packet & ->)].
  - split_and!; try done.
    + intros e' He'. by exists e'.
    + intros h hd' Hl. by exists hd'.
  - destruct (callback_frame self addr.1 packet w)
      as (H1 & H2 & H3 & H4 & H5 & H6 & H7 & H8 & H9).
    split_and!; try done.
    intros f s. apply callback_resolved_stable.
Qed.

(** ** Set-up *)

Section Listen.

Lemma alter_last (f : Endpoint -> Endpoint) (es : list Endpoint) e :
  alter f (List.length es) (es ++ [e]) = es ++ [f e].
Proof.
  rewrite <- (Nat.add_0_r (List.length es)). by rewrite alter_app_r.
Qed.

Lemma next_setup_fields w :
  futures (next_setup w).2 = futures w
  /\ timers (next_setup w).2 = timers w
  /\ endpoints (next_setup w).2 = endpoints w
  /\ arrivals (next_setup w).2 = arrivals w
  /\ setups (next_setup w).2 = tail (setups w).
Proof.
  unfold next_setup. destruct (setups w) eqn:Hs; simpl; rewrite ?Hs; by split_and!.
Qed.

Lemma listen_ssdp_exact lan_address gateway_address ssdp_socket w :
  listen_ssdp lan_address gateway_address ssdp_socket w
  = match (next_setup w).1 with
    | SetupOk =>
        (Return (List.length (endpoints w), List.length (endpoints w),
                 gateway_address, lan_address),
         with_endpoints (endpoints w ++ [listening lan_address ssdp_socket])
           (next_setup w).2)
    | EndpointFails err => (Raise (UPnPError_of err), (next_setup w).2)
    | JoinFails err =>
        (Raise (UPnPError_of err),
         with_endpoints (endpoints w ++ [abandoned lan_address ssdp_socket])
           (next_setup w).2)
    end.
Proof.
  unfold listen_ssdp.
  destruct (next_setup_fields w) as (_ & _ & He & _).
  destruct (next_setup w) as [setup w1]. simpl in *.
  destruct setup as [|err|err]; [|done|];
    unfold bind, create_datagram_endpoint, join_group_set_ttl, close, ret,
      raise; simpl; rewrite He, alter_last; done.
Qed.

Lemma listening_consistent lan_address ssdp_socket w :
  consistent w ->
  consistent
    (with_endpoints (endpoints w ++ [listening lan_address ssdp_socket])
       (next_setup w).2).
Proof.
  intros Hc. destruct (next_setup_fields w) as (Hf & Ht & He & _).
  eapply consistent_frame; [| | |exact Hc]; simpl; [done|done|].
  intros i e' [Hi|[_ Hi]]%lookup_app_Some.
  - right. by exists e'.
  - left. destruct (i - List.length (endpoints w))%nat; [|done].
    by inversion Hi.
Qed.

End Listen.

(** X8.  [listen_ssdp] either returns a fresh transport and protocol, bound
    to the LAN address, joined to the group 239.255.255.250 with TTL 1, not
    closed, with an empty registry and nothing sent, together with the
    addresses it was given; or it raises [UPnPError] wrapping what set-up
    ran into, and then a transport it had already created has been closed
    once.  It never touches an existing endpoint, a future or a handle. *)
Theorem listen_ssdp_binds_or_cleans_up
    (lan_address gateway_address : string) (ssdp_socket : option nat)
    (w : World) :
  let rw := listen_ssdp lan_address gateway_address ssdp_socket w in
  futures rw.2 = futures w /\ timers rw.2 = timers w
  /\ arrivals rw.2 = arrivals w
  /\ ((rw.1 = Return (List.length (endpoints w), List.length (endpoints w),
                      gateway_address, lan_address)
       /\ endpoints rw.2
          = endpoints w
            ++ [mkEndpoint "239.255.255.250" lan_address ssdp_socket
                  (Some ("239.255.255.250", lan_address)) (Some 1%Z) [] [] 0])
      \/ (exists err, rw.1 = Raise (UPnPError_of err)
            /\ (endpoints rw.2 = endpoints w
                \/ exists e, endpoints rw.2 = endpoints w ++ [e]
                     /\ closes e = 1%nat /\ sent e = []
                     /\ _pending_searches e = []))).
Proof.
  intros rw. unfold rw. rewrite listen_ssdp_exact.
  destruct (next_setup_fields w) as (Hf & Ht & He & Ha & _).
  destruct ((next_setup w).1) as [|err|err]; simpl.
  - split_and!; [done..|]. by left.
  - split_and!; [done..|]. right. exists err. split; [done|]. by left.
  - split_and!; [done..|]. right. exists err. split; [done|]. right.
    by eexists.
Qed.

(** ** The single search *)

Section SingleSearchRuns.

Context (codec : Codec).

Lemma listen_ssdp_listening lan_address gateway_address ssdp_socket w :
  (next_setup w).1 = SetupOk ->
  listen_ssdp lan_address gateway_address ssdp_socket w
  = (Return (List.length (endpoints w), List.length (endpoints w),
             gateway_address, lan_address),
     with_endpoints (endpoints w ++ [listening lan_address ssdp_socket])
       (next_setup w).2).
Proof. intros Hs. by rewrite listen_ssdp_exact, Hs. Qed.



Lemma sent_on_close transport w i :
  sent_on i (close transport w).2 = sent_on i w.
Proof.
  unfold sent_on. simpl. destruct (decide (transport = i)) as [->|Hne].
  - rewrite list_lookup_alter_eq. by destruct (endpoints w !! i).
  - by rewrite list_lookup_alter_ne.
Qed.

Lemma sent_on_run_timers w i :
  sent_on i (SSDPProtocol.run_timers w) = sent_on i w.
Proof. unfold sent_on. by rewrite run_timers_endpoints. Qed.

End SingleSearchRuns.

(** X9.  [m_search] for one parameter set with a search target, when
    set-up succeeds and nothing arrives before the timeout: it raises the
    [UPnPError] "M-SEARCH for <gateway>:1900 timed out"; by then the request
    has been sent once to port 1900 of the gateway, the future of the search
    is cancelled and the transport has been closed exactly once. *)
Theorem single_search_times_out_when_nothing_arrives
    (codec : Codec) (lan_address gateway_address : string)
    (datagram_args : OrderedDict) (timeout : Q) (ssdp_socket : option nat)
    (w : World) :
  consistent w -> carries_st codec datagram_args ->
  (next_setup w).1 = SetupOk ->
  default [] (head (arrivals w)) = [] ->
  let rw := m_search codec lan_address gateway_address datagram_args timeout
              ssdp_socket w in
  rw.1 = Raise (UPnPError
                  ("M-SEARCH for " +:+ gateway_address +:+ ":1900 timed out"))
  /\ futures rw.2 !! List.length (futures w) = Some CANCELLED
  /\ sent_on (List.length (endpoints w)) rw.2
     = Some [(encode codec (construct codec _M_SEARCH datagram_args),
              (gateway_address, 1900%Z))]
  /\ closes <$> endpoints rw.2 = (closes <$> endpoints w) ++ [1%nat].
Proof.
  intros Hc Hst Hsetup Hquiet rw.
  pose proof (listen_ssdp_listening lan_address gateway_address ssdp_socket w
                Hsetup) as Hlisten.
  pose proof (listening_consistent lan_address ssdp_socket w Hc) as Hc0.
  destruct (next_setup_fields w) as (Hf0 & Ht0 & He0 & Ha0 & _).
  set (w0 := with_endpoints _ _) in *.
  assert (Hall : Forall (carries_st codec) [datagram_args])
    by (by apply Forall_singleton).
  assert (Hne : [datagram_args] <> []) by done.
  assert (Hquiet0 : default [] (head (arrivals w0)) = []).
  { unfold w0. simpl. by rewrite Ha0. }
  destruct (engine_m_search_quiet codec (List.length (endpoints w))
              gateway_address timeout [datagram_args] w0 Hc0 Hne Hall Hquiet0)
    as (Hengine & Hcan).
  assert (Hrun := m_search_exits codec _ _ _ _ _ _ _ _ _ _ Hlisten Hengine).
  cbv beta iota in Hrun. rewrite bool_decide_eq_true_2 in Hrun by auto.
  assert (Hends : rw.1 <> Suspended) by (unfold rw; by rewrite Hrun).
  split_and!.
  - unfold rw. by rewrite Hrun.
  - unfold rw. rewrite Hrun. revert Hcan. unfold w0. simpl.
    by rewrite Hf0.
  - unfold rw. rewrite Hrun.
    cbn [snd]. rewrite sent_on_close, sent_on_run_timers.
    unfold sent_on. cbn [endpoints with_arrivals].
    rewrite (awaiting_lookup codec _ _ _ _ w0
               (listening lan_address ssdp_socket)).
    + done.
    + unfold w0. simpl.
      rewrite lookup_app_r by done. by rewrite Nat.sub_diag.
  - by apply m_search_closes_once.
Qed.

Lemma single_search_times_out_when_nothing_arrives_witness :
  let rw := m_search toy lan gateway (params wan_ip) 1 None empty_world in
  rw.1 = Raise (UPnPError
                  ("M-SEARCH for " +:+ gateway +:+ ":1900 timed out"))
  /\ futures rw.2 !! 0 = Some CANCELLED
  /\ sent_on 0 rw.2
     = Some [(encode toy (construct toy _M_SEARCH (params wan_ip)),
              (gateway, 1900%Z))]
  /\ closes <$> endpoints rw.2 = [] ++ [1%nat].
Proof.
  apply (single_search_times_out_when_nothing_arrives toy lan gateway
           (params wan_ip) 1 None empty_world).
  - apply fresh_loop_consistent.
  - by eexists.
  - reflexivity.
  - reflexivity.
Defined.



(** ** Every operation keeps the world consistent and comes to an end *)

Section Invariant.

Context (codec : Codec).

Lemma register_consistent self address timeout fut datagrams packets w :
  consistent w -> (fut < List.length (futures w))%nat ->
  consistent
    (SSDPProtocol.register codec self address timeout fut datagrams packets w).2.
Proof.
  revert packets w. induction datagrams as [|datagram datagrams IH];
    intros packets w Hc Hlt; simpl; [done|].
  destruct (st (construct codec _M_SEARCH datagram)) as [s|]; [|done].
  unfold bind at 1. simpl. unfold bind at 1. simpl.
  apply IH; [|done].
  apply (schedule_consistent self address s timeout fut w Hc Hlt).
Qed.

Lemma suspend_consistent fut events w :
  consistent w -> consistent (SSDPProtocol.suspend codec fut events w).2.
Proof.
  revert w. induction events as [|ev events IH]; intros w Hc; simpl.
  - destruct (SSDPProtocol.result (futures w) fut); [done|].
    destruct (SSDPProtocol.result (futures (SSDPProtocol.run_timers w)) fut);
      simpl; by apply run_timers_from_consistent.
  - destruct (SSDPProtocol.result (futures w) fut); [done|].
    by apply IH, run_event_consistent.
Qed.

Lemma engine_m_search_consistent self address timeout datagrams w :
  consistent w ->
  consistent (SSDPProtocol.m_search codec self address timeout datagrams w).2.
Proof.
  intros Hc. unfold SSDPProtocol.m_search, bind at 1, SSDPProtocol.new_future.
  simpl. unfold bind at 1.
  pose proof (register_consistent self address timeout
                (List.length (futures w)) datagrams []
                (with_futures (futures w ++ [PENDING]) w)
                (new_future_consistent w Hc)) as Hreg.
  destruct (SSDPProtocol.register codec self address timeout
              (List.length (futures w)) datagrams []
              (with_futures (futures w ++ [PENDING]) w))
    as [[packets|e|] w1]; simpl in *;
    try (apply Hreg; rewrite length_app; simpl; lia).
  unfold bind at 1.
  destruct (send_many_m_searches_spec codec self address packets w1)
    as (w2 & -> & _ & _ & _ & _ & Hc2 & _).
  assert (Hc2' : consistent w2).
  { apply Hc2, Hreg. rewrite length_app. simpl. lia. }
  unfold SSDPProtocol.await. destruct (arrivals w2).
  - by apply suspend_consistent.
  - apply suspend_consistent. revert Hc2'. by apply consistent_same.
Qed.

Lemma engine_m_search_ends self address timeout datagrams w :
  consistent w -> datagrams <> [] ->
  (SSDPProtocol.m_search codec self address timeout datagrams w).1 <> Suspended.
Proof.
  intros Hc Hne.
  destruct (decide (Forall (carries_st codec) datagrams)) as [Hall|Hnot].
  - destruct (SSDPProtocol.m_search codec self address timeout datagrams w)
      as [r1 w1] eqn:Hrun.
    destruct (engine_m_search_outcome codec _ _ _ _ _ _ _ Hc Hne Hall Hrun)
      as (_ & [(packet & ->)| ->]); done.
  - apply not_carries_st in Hnot.
    destruct (engine_m_search_null codec self address timeout datagrams w Hnot)
      as (w1 & -> & _). done.
Qed.

Lemma m_search_consistent lan_address gateway_address datagram_args timeout
    ssdp_socket w :
  consistent w ->
  consistent
    (m_search codec lan_address gateway_address datagram_args timeout
       ssdp_socket w).2
  /\ (m_search codec lan_address gateway_address datagram_args timeout
        ssdp_socket w).1 <> Suspended.
Proof.
  intros Hc. unfold m_search, bind.
  destruct (listen_ssdp lan_address gateway_address ssdp_socket w)
    as [r0 w0] eqn:Hlisten.
  destruct (listen_ssdp_outcome _ _ _ _ _ _ Hc Hlisten)
    as (Hc0 & [(transport & -> & _)|(err & ->)]); [|done].
  unfold try_finally, try_except.
  pose proof (engine_m_search_consistent transport gateway_address timeout
                [datagram_args] w0 Hc0) as Hc1.
  pose proof (engine_m_search_ends transport gateway_address timeout
                [datagram_args] w0 Hc0 ltac:(discriminate)) as Hends.
  destruct (SSDPProtocol.m_search codec transport gateway_address timeout
              [datagram_args] w0) as [[packet|e|] w1]; simpl in *.
  - split; [by apply close_consistent|done].
  - destruct e; simpl; (split; [by apply close_consistent|done]).
  - done.
Qed.

Lemma batches_consistent rounds protocol gateway_address wait packet_args w :
  consistent w -> (List.length packet_args <= rounds)%nat ->
  consistent
    (batches codec rounds protocol gateway_address wait packet_args w).2
  /\ (batches codec rounds protocol gateway_address wait packet_args w).1
     <> Suspended.
Proof.
  revert packet_args w. induction rounds as [|rounds IH];
    intros packet_args w Hc Hlen;
    destruct packet_args as [|d packet_args]; simpl in *; try done; [lia|].
  unfold try_except, bind.
  pose proof (engine_m_search_consistent protocol gateway_address wait
                (d :: take 1 packet_args) w Hc) as Hc1.
  pose proof (engine_m_search_ends protocol gateway_address wait
                (d :: take 1 packet_args) w Hc ltac:(discriminate)) as Hends.
  destruct (SSDPProtocol.m_search codec protocol gateway_address wait
              (d :: take 1 packet_args) w) as [[packet|e|] w1];
    simpl in *; [done| |done].
  assert (Hlen' : (List.length (drop 1 packet_args) <= rounds)%nat).
  { rewrite length_drop. lia. }
  destruct e; simpl; try done; by apply IH.
Qed.

Lemma _fuzzy_m_search_consistent packet_generator lan_address gateway_address
    timeout ssdp_socket w :
  consistent w ->
  consistent
    (_fuzzy_m_search codec packet_generator lan_address gateway_address
       timeout ssdp_socket w).2
  /\ (_fuzzy_m_search codec packet_generator lan_address gateway_address
        timeout ssdp_socket w).1 <> Suspended.
Proof.
  intros Hc. unfold _fuzzy_m_search, bind.
  destruct (listen_ssdp lan_address gateway_address ssdp_socket w)
    as [r0 w0] eqn:Hlisten.
  destruct (listen_ssdp_outcome _ _ _ _ _ _ Hc Hlisten)
    as (Hc0 & [(transport & -> & _)|(err & ->)]); [|done].
  case_bool_decide; [done|]. by apply batches_consistent.
Qed.

Lemma try_each_consistent lan_address gateway_address args_to_try w :
  consistent w ->
  consistent (try_each codec lan_address gateway_address args_to_try w).2.
Proof.
  revert w. induction args_to_try as [|args rest IH]; intros w Hc; simpl;
    [done|].
  unfold try_except, bind.
  destruct (m_search_consistent lan_address gateway_address args 3 None w Hc)
    as (Hc1 & _).
  destruct (m_search codec lan_address gateway_address args 3 None w)
    as [[packet|e|] w1]; simpl in *; [done| |done].
  destruct e; simpl; try done; by apply IH.
Qed.

Lemma batches_chunk rounds protocol gateway_address wait packet_args w batch :
  (batches codec rounds protocol gateway_address wait packet_args w).1
  = Return batch ->
  batch ∈ chunks rounds packet_args.
Proof.
  revert packet_args w. induction rounds as [|rounds IH]; intros packet_args w;
    destruct packet_args as [|d packet_args]; simpl; try done.
  unfold try_except, bind.
  destruct (SSDPProtocol.m_search codec protocol gateway_address wait
              (d :: take 1 packet_args) w) as [[packet|e|] w1];
    simpl; [|  |done].
  - intros [= <-]. by left.
  - destruct e; simpl; try done; intros Hrun; right; by eapply IH.
Qed.

Lemma chunks_elem rounds packet_args batch args :
  batch ∈ chunks rounds packet_args -> args ∈ batch -> args ∈ packet_args.
Proof.
  revert packet_args. induction rounds as [|rounds IH]; intros packet_args;
    destruct packet_args as [|d packet_args]; simpl;
    try (intros Hin; by apply elem_of_nil in Hin).
  intros [Heq|Hin]%elem_of_cons Hargs.
  - subst batch. apply elem_of_cons in Hargs as [->|Hargs]; [by left|].
    right. by apply (subseteq_take 1 packet_args).
  - right. apply (subseteq_drop 1 packet_args). by apply IH.
Qed.

End Invariant.

Section FuzzyEnds.

Context (codec : Codec).

Lemma _fuzzy_m_search_chunk packet_generator lan_address gateway_address
    timeout ssdp_socket w batch :
  (_fuzzy_m_search codec packet_generator lan_address gateway_address timeout
     ssdp_socket w).1 = Return batch ->
  batch ∈ batches_of packet_generator.
Proof.
  unfold _fuzzy_m_search, bind.
  destruct (listen_ssdp lan_address gateway_address ssdp_socket w)
    as [[[[[transport protocol] g] l]|e|] w0]; [|done..].
  case_bool_decide; [done|]. apply batches_chunk.
Qed.

Lemma fuzzy_m_search_consistent packet_generator lan_address gateway_address
    timeout ssdp_socket w :
  consistent w ->
  consistent
    (fuzzy_m_search codec packet_generator lan_address gateway_address timeout
       ssdp_socket w).2.
Proof.
  intros Hc. unfold fuzzy_m_search, bind.
  destruct (_fuzzy_m_search_consistent codec packet_generator lan_address
              gateway_address timeout ssdp_socket w Hc) as (Hc1 & _).
  destruct (_fuzzy_m_search codec packet_generator lan_address gateway_address
              timeout ssdp_socket w) as [[batch|e|] w1]; simpl in *;
    [|done..].
  by apply try_each_consistent.
Qed.

Lemma fuzzy_m_search_outcome packet_generator lan_address gateway_address
    timeout ssdp_socket w :
  consistent w ->
  (exists args packet,
     (fuzzy_m_search codec packet_generator lan_address gateway_address
        timeout ssdp_socket w).1 = Return (args, packet)
     /\ args ∈ packet_generator /\ carries_st codec args)
  \/ exists e,
       (fuzzy_m_search codec packet_generator lan_address gateway_address
          timeout ssdp_socket w).1 = Raise e.
Proof.
  intros Hc. unfold fuzzy_m_search, bind.
  destruct (_fuzzy_m_search_consistent codec packet_generator lan_address
              gateway_address timeout ssdp_socket w Hc) as (_ & Hends).
  destruct (_fuzzy_m_search codec packet_generator lan_address gateway_address
              timeout ssdp_socket w) as [[batch|e|] w1] eqn:Hrun;
    simpl in *; [|right; by exists e|done].
  destruct (_fuzzy_m_search_viable codec _ _ _ _ _ _ _ _ Hc Hrun)
    as (Hc1 & Hall).
  assert (Hchunk : batch ∈ batches_of packet_generator).
  { eapply _fuzzy_m_search_chunk. by rewrite Hrun. }
  destruct (try_each_first_success codec lan_address gateway_address batch w1
              Hc1 Hall) as (-> & [(args & packet & Hret & Hin)|Hfail]).
  - left. exists args, packet. split_and!; [done| |].
    + by eapply chunks_elem.
    + by eapply (proj1 (Forall_forall _ _) Hall).
  - right. by eexists.
Qed.

End FuzzyEnds.

(** X11.  In a consistent world [m_search] always comes to an end, whatever
    its parameter set and whatever arrives, and when it has ended every
    transport it bound has been closed exactly once: none when the endpoint
    could not be created, one otherwise; the transports that existed before
    are as often closed as they were. *)
Theorem m_search_always_ends_with_transport_closed
    (codec : Codec) (lan_address gateway_address : string)
    (datagram_args : OrderedDict) (timeout : Q) (ssdp_socket : option nat)
    (w : World) :
  consistent w ->
  let rw := m_search codec lan_address gateway_address datagram_args timeout
              ssdp_socket w in
  rw.1 <> Suspended
  /\ closes <$> endpoints rw.2
     = (closes <$> endpoints w)
       ++ match (next_setup w).1 with
          | EndpointFails _ => []
          | _ => [1%nat]
          end.
Proof.
  intros Hc rw.
  destruct (m_search_consistent codec lan_address gateway_address datagram_args
              timeout ssdp_socket w Hc) as (_ & Hends).
  split; [done|].
  destruct (next_setup_fields w) as (_ & _ & He & _).
  destruct ((next_setup w).1) as [|err|err] eqn:Hsetup.
  - by apply m_search_closes_once.
  - unfold rw, m_search, bind. rewrite listen_ssdp_exact, Hsetup. simpl.
    by rewrite He, app_nil_r.
  - unfold rw, m_search, bind. rewrite listen_ssdp_exact, Hsetup. simpl.
    by rewrite fmap_app.
Qed.

Lemma m_search_always_ends_with_transport_closed_witness :
  let w := mkWorld [] [] [] [JoinFails (OSError "no such device")] [] in
  let rw := m_search toy lan gateway no_target 1 None w in
  rw.1 <> Suspended /\ closes <$> endpoints rw.2 = [] ++ [1%nat].
Proof.
  apply (m_search_always_ends_with_transport_closed toy lan gateway no_target
           1 None
           (mkWorld [] [] [] [JoinFails (OSError "no such device")] [])).
  apply fresh_loop_consistent.
Defined.

(** X12.  Consistency of the world is an invariant of the whole file: when
    the handle of every pending search is the one scheduled for its future,
    every handle was scheduled for an existing future, and a handle is
    cancelled or has run only if its future is resolved, then this still
    holds after any event the loop runs, after the engine's search, after
    [m_search] and after [fuzzy_m_search], however they end. *)
Theorem operations_keep_world_consistent
    (codec : Codec) (packet_generator : list OrderedDict)
    (lan_address gateway_address : string) (timeout : Q)
    (ssdp_socket : option nat) (w : World) :
  consistent w ->
  (forall ev, consistent (SSDPProtocol.run_event codec ev w))
  /\ (forall self address datagrams,
        consistent
          (SSDPProtocol.m_search codec self address timeout datagrams w).2)
  /\ (forall datagram_args,
        consistent
          (m_search codec lan_address gateway_address datagram_args timeout
             ssdp_socket w).2)
  /\ consistent
       (fuzzy_m_search codec packet_generator lan_address gateway_address
          timeout ssdp_socket w).2.
Proof.
  intros Hc. split_and!.
  - intros ev. by apply run_event_consistent.
  - intros self address datagrams. by apply engine_m_search_consistent.
  - intros datagram_args. by apply m_search_consistent.
  - by apply fuzzy_m_search_consistent.
Qed.

Lemma operations_keep_world_consistent_witness :
  (forall ev, consistent (SSDPProtocol.run_event toy ev answering_world))
  /\ (forall self address datagrams,
        consistent
          (SSDPProtocol.m_search toy self address 30 datagrams
             answering_world).2)
  /\ (forall datagram_args,
        consistent
          (m_search toy lan gateway datagram_args 30 None answering_world).2)
  /\ consistent
       (fuzzy_m_search toy two_candidates lan gateway 30 None
          answering_world).2.
Proof.
  apply (operations_keep_world_consistent toy two_candidates lan gateway 30
           None answering_world).
  apply fresh_loop_consistent.
Defined.

(** X13.  In a consistent world [fuzzy_m_search] always comes to an end:
    it raises, or it returns a pair of a parameter set and a reply, and then
    the parameter set is one of the candidates of the generator and carries
    a search target. *)
Theorem fuzzy_m_search_ends_with_candidate_or_error
    (codec : Codec) (packet_generator : list OrderedDict)
    (lan_address gateway_address : string) (timeout : Q)
    (ssdp_socket : option nat) (w : World) :
  consistent w ->
  (exists args packet,
     (fuzzy_m_search codec packet_generator lan_address gateway_address
        timeout ssdp_socket w).1 = Return (args, packet)
     /\ args ∈ packet_generator /\ carries_st codec args)
  \/ exists e,
       (fuzzy_m_search codec packet_generator lan_address gateway_address
          timeout ssdp_socket w).1 = Raise e.
Proof. apply fuzzy_m_search_outcome. Qed.

Lemma fuzzy_m_search_ends_with_candidate_or_error_witness :
  (exists args packet,
     (fuzzy_m_search toy two_candidates lan gateway 30 None
        answering_world).1 = Return (args, packet)
     /\ args ∈ two_candidates /\ carries_st toy args)
  \/ exists e,
       (fuzzy_m_search toy two_candidates lan gateway 30 None
          answering_world).1 = Raise e.
Proof.
  apply (fuzzy_m_search_ends_with_candidate_or_error toy two_candidates lan
           gateway 30 None answering_world).
  apply fresh_loop_consistent.
Defined.

(** ** The batch phase *)

Section Batches.

Context (codec : Codec).





Lemma suspend_sent fut events w :
  sent <$> endpoints (SSDPProtocol.suspend codec fut events w).2
  = sent <$> endpoints w.
Proof.
  revert w. induction events as [|ev events IH]; intros w; simpl.
  - destruct (SSDPProtocol.result (futures w) fut); [done|].
    destruct (SSDPProtocol.result (futures (SSDPProtocol.run_timers w)) fut);
      simpl; by rewrite run_timers_endpoints.
  - destruct (SSDPProtocol.result (futures w) fut); [done|].
    rewrite IH. destruct ev as [tr data addr|h]; simpl.
    + destruct (endpoints w !! tr); [|done].
      case_bool_decide; [|done].
      destruct (datagram_received_cases codec tr data addr w)
        as [->|(packet & ->)]; [done|].
      by destruct (callback_frame tr addr.1 packet w) as (_ & _ & Hs & _).
    + by rewrite run_timer_endpoints.
Qed.

(** What the engine's search has sent when it ends, however it ends, if
    its requests all had a search target. *)
Lemma engine_m_search_sent self address timeout datagrams w e :
  endpoints w !! self = Some e -> Forall (carries_st codec) datagrams ->
  exists e',
    endpoints
      (SSDPProtocol.m_search codec self address timeout datagrams w).2 !! self
    = Some e'
    /\ sent e'
       = sent e
         ++ requests codec address (construct codec _M_SEARCH <$> datagrams)
    /\ closes e' = closes e.
Proof.
  intros He Hall. rewrite m_search_awaits by done.
  pose proof (awaiting_lookup codec self address timeout datagrams w e He)
    as Haw.
  set (wa := awaiting codec self address timeout datagrams w) in *.
  assert (Hframe : forall fut events w0,
            endpoints w0 = endpoints wa ->
            exists e',
              endpoints (SSDPProtocol.suspend codec fut events w0).2 !! self
              = Some e'
              /\ sent e'
                 = sent e ++ requests codec address
                               (construct codec _M_SEARCH <$> datagrams)
              /\ closes e' = closes e).
  { intros fut events w0 Hw0.
    pose proof (suspend_sent fut events w0) as Hs.
    pose proof (suspend_closes codec fut events w0) as Hcl.
    apply (f_equal (fun l => l !! self)) in Hs.
    apply (f_equal (fun l => l !! self)) in Hcl.
    rewrite !list_lookup_fmap, Hw0, Haw in Hs.
    rewrite !list_lookup_fmap, Hw0, Haw in Hcl.
    destruct (endpoints (SSDPProtocol.suspend codec fut events w0).2 !! self)
      as [e'|]; [|done].
    exists e'. simpl in Hs, Hcl. split; [done|].
    split; congruence. }
  unfold SSDPProtocol.await.
  destruct (arrivals wa) as [|events later]; by apply Hframe.
Qed.

(** The batch the loop returns is one of its batches, and the requests sent
    by then are those of the candidates up to the end of that batch, each
    once and in order. *)
Lemma batches_sent rounds protocol gateway_address wait packet_args w e batch w' :
  endpoints w !! protocol = Some e ->
  batches codec rounds protocol gateway_address wait packet_args w
  = (Return batch, w') ->
  exists k e',
    chunks rounds packet_args !! k = Some batch
    /\ endpoints w' !! protocol = Some e'
    /\ sent e'
       = sent e
         ++ requests codec gateway_address
              (construct codec _M_SEARCH
                 <$> concat (take (S k) (chunks rounds packet_args))).
Proof.
  revert packet_args w e. induction rounds as [|rounds IH];
    intros packet_args w e He;
    destruct packet_args as [|d packet_args]; try done.
  change (batches codec (S rounds) protocol gateway_address wait
            (d :: packet_args) w)
    with (try_except
            (bind (SSDPProtocol.m_search codec protocol gateway_address wait
                     (take batch_size (d :: packet_args)))
               (fun _ => ret (take batch_size (d :: packet_args))))
            (fun e0 =>
               match e0 with
               | TimeoutError | CancelledError =>
                   Some (batches codec rounds protocol gateway_address wait
                           (drop batch_size (d :: packet_args)))
               | _ => None
               end) w).
  change (chunks (S rounds) (d :: packet_args))
    with (take batch_size (d :: packet_args)
            :: chunks rounds (drop batch_size (d :: packet_args))).
  set (args := take batch_size (d :: packet_args)).
  set (rest := drop batch_size (d :: packet_args)).
  unfold try_except, bind.
  destruct (decide (Forall (carries_st codec) args)) as [Hall|Hnot].
  - destruct (engine_m_search_sent protocol gateway_address wait args w e
                He Hall) as (e1 & He1 & Hsent1 & _).
    assert (Hnext :
      batches codec rounds protocol gateway_address wait rest
        (SSDPProtocol.m_search codec protocol gateway_address wait args w).2
      = (Return batch, w') ->
      exists k e',
        (args :: chunks rounds rest) !! k = Some batch
        /\ endpoints w' !! protocol = Some e'
        /\ sent e'
           = sent e
             ++ requests codec gateway_address
                  (construct codec _M_SEARCH
                     <$> concat (take (S k) (args :: chunks rounds rest)))).
    { intros Hrun.
      destruct (IH rest _ e1 He1 Hrun) as (k & e' & Hk & He' & Hsent').
      exists (S k), e'. split_and!; [done..|].
      rewrite Hsent', Hsent1. unfold requests.
      rewrite <- app_assoc, <- !fmap_app. done. }
    destruct (SSDPProtocol.m_search codec protocol gateway_address wait args w)
      as [[packet|err|] w1]; [| |done].
    + intros [= <- <-]. exists 0%nat, e1. split_and!; [done..|].
      rewrite Hsent1. simpl. by rewrite app_nil_r.
    + destruct err; try done; exact Hnext.
  - apply not_carries_st in Hnot.
    destruct (engine_m_search_null codec protocol gateway_address wait _ w Hnot)
      as (w0 & -> & _). done.
Qed.

End Batches.

Section QuietBatches.

Context (codec : Codec).



End QuietBatches.




(** X16.  With a generator that yields no candidate, [fuzzy_m_search] does
    not raise a [UPnPError]: once the transport is bound, dividing the
    timeout by the number of candidates raises [ZeroDivisionError], which
    reaches the caller; nothing has been sent and the transport is still
    open. *)
Theorem fuzzy_m_search_without_candidates_divides_by_zero
    (codec : Codec) (lan_address gateway_address : string) (timeout : Q)
    (ssdp_socket : option nat) (w : World) :
  (next_setup w).1 = SetupOk ->
  let rw := fuzzy_m_search codec [] lan_address gateway_address timeout
              ssdp_socket w in
  rw.1 = Raise ZeroDivisionError
  /\ all_sent rw.2 = all_sent w ++ [[]]
  /\ closes <$> endpoints rw.2 = (closes <$> endpoints w) ++ [0%nat].
Proof.
  intros Hsetup rw.
  pose proof (listen_ssdp_listening lan_address gateway_address ssdp_socket w
                Hsetup) as Hlisten.
  destruct (next_setup_fields w) as (_ & _ & He0 & _).
  assert (Hrun : rw = (Raise ZeroDivisionError,
                       with_endpoints
                         (endpoints w ++ [listening lan_address ssdp_socket])
                         (next_setup w).2)).
  { unfold rw, fuzzy_m_search, _fuzzy_m_search, bind. by rewrite Hlisten. }
  rewrite Hrun. unfold all_sent. simpl. by rewrite !fmap_app.
Qed.

Lemma fuzzy_m_search_without_candidates_divides_by_zero_witness :
  let rw := fuzzy_m_search toy [] lan gateway 30 None empty_world in
  rw.1 = Raise ZeroDivisionError
  /\ all_sent rw.2 = [] ++ [[]]
  /\ closes <$> endpoints rw.2 = [] ++ [0%nat].
Proof.
  apply (fuzzy_m_search_without_candidates_divides_by_zero toy lan gateway 30
           None empty_world).
  reflexivity.
Defined.

(** X17.  When the set-up of the transport for the batch phase succeeds
    and one of the first two candidates gives a request without a search
    target, [fuzzy_m_search] raises the assertion error itself: it is neither
    taken for a timeout nor skipped, no later batch is tried and nothing at
    all has been sent. *)
Theorem fuzzy_m_search_null_target_asserts
    (codec : Codec) (packet_generator : list OrderedDict)
    (lan_address gateway_address : string) (timeout : Q)
    (ssdp_socket : option nat) (w : World) (datagram : OrderedDict) :
  (next_setup w).1 = SetupOk ->
  datagram ∈ take 2 packet_generator ->
  st (construct codec _M_SEARCH datagram) = None ->
  let rw := fuzzy_m_search codec packet_generator lan_address gateway_address
              timeout ssdp_socket w in
  rw.1 = Raise AssertionError /\ all_sent rw.2 = all_sent w ++ [[]].
Proof.
  intros Hsetup Hin Hnull rw.
  pose proof (listen_ssdp_listening lan_address gateway_address ssdp_socket w
                Hsetup) as Hlisten.
  destruct (next_setup_fields w) as (_ & _ & He0 & _).
  set (w0 := with_endpoints _ _) in *.
  destruct packet_generator as [|d packet_generator].
  { by apply elem_of_nil in Hin. }
  destruct (engine_m_search_null codec (List.length (endpoints w))
              gateway_address (batch_timeout timeout (d :: packet_generator))
              (take 2 (d :: packet_generator)) w0)
    as (w1 & Hengine & Hsent & _).
  { apply Exists_exists. by exists datagram. }
  assert (Hrun : rw = (Raise AssertionError, w1)).
  { unfold rw, fuzzy_m_search, _fuzzy_m_search, bind. rewrite Hlisten.
    rewrite bool_decide_eq_false_2 by done.
    change (batches codec (List.length (d :: packet_generator))
              (List.length (endpoints w)) gateway_address
              (batch_timeout timeout (d :: packet_generator))
              (d :: packet_generator) w0)
      with (try_except
              (bind (SSDPProtocol.m_search codec (List.length (endpoints w))
                       gateway_address
                       (batch_timeout timeout (d :: packet_generator))
                       (take 2 (d :: packet_generator)))
                 (fun _ => ret (take 2 (d :: packet_generator))))
              (fun e0 =>
                 match e0 with
                 | TimeoutError | CancelledError =>
                     Some (batches codec (List.length packet_generator)
                             (List.length (endpoints w)) gateway_address
                             (batch_timeout timeout (d :: packet_generator))
                             (drop 2 (d :: packet_generator)))
                 | _ => None
                 end) w0).
    unfold try_except, bind. by rewrite Hengine. }
  rewrite Hrun. split; [done|]. simpl. rewrite Hsent. unfold all_sent, w0.
  simpl. by rewrite fmap_app.
Qed.

Lemma fuzzy_m_search_null_target_asserts_witness :
  let rw := fuzzy_m_search toy [params wan_ip; no_target; params wan_ppp] lan
              gateway 30 None answering_world in
  rw.1 = Raise AssertionError /\ all_sent rw.2 = [] ++ [[]].
Proof.
  apply (fuzzy_m_search_null_target_asserts toy
           [params wan_ip; no_target; params wan_ppp] lan gateway 30 None
           answering_world no_target).
  - reflexivity.
  - apply list_elem_of_further, list_elem_of_here.
  - reflexivity.
Defined.

(** X18.  When the batch phase returns a batch, it is one of the batches of
    the generator, say the k-th, and what has been sent on its transport is
    exactly the requests of the candidates of the batches up to the k-th,
    each once and in order: the batches after the answered one are never
    sent. *)
Theorem viable_batch_ends_the_batch_phase
    (codec : Codec) (packet_generator : list OrderedDict)
    (lan_address gateway_address : string) (timeout : Q)
    (ssdp_socket : option nat) (w : World) (batch : list OrderedDict)
    (w' : World) :
  (next_setup w).1 = SetupOk ->
  _fuzzy_m_search codec packet_generator lan_address gateway_address timeout
    ssdp_socket w = (Return batch, w') ->
  exists k,
    batches_of packet_generator !! k = Some batch
    /\ sent_on (List.length (endpoints w)) w'
       = Some ((fun datagram =>
                  (encode codec (construct codec _M_SEARCH datagram),
                   (gateway_address, 1900%Z)))
                 <$> concat (take (S k) (batches_of packet_generator))).
Proof.
  intros Hsetup. unfold _fuzzy_m_search, bind at 1.
  rewrite (listen_ssdp_listening lan_address gateway_address ssdp_socket w
             Hsetup).
  set (w0 := with_endpoints _ _).
  case_bool_decide; [done|]. intros Hrun.
  assert (He0 : endpoints w0 !! List.length (endpoints w)
                = Some (listening lan_address ssdp_socket)).
  { unfold w0. simpl. rewrite lookup_app_r by done. by rewrite Nat.sub_diag. }
  destruct (batches_sent codec _ _ _ _ _ _ _ _ _ He0 Hrun)
    as (k & e' & Hk & He' & Hsent').
  exists k. split; [done|]. unfold sent_on. rewrite He'. simpl.
  rewrite Hsent'. unfold requests. simpl. by rewrite <- list_fmap_compose.
Qed.

Lemma viable_batch_ends_the_batch_phase_witness :
  let packet_generator :=
    [params wan_ppp; params wan_ip; params rootdevice; params "ssdp:all"] in
  exists k,
    batches_of packet_generator !! k = Some [params wan_ppp; params wan_ip]
    /\ sent_on 0
         (_fuzzy_m_search toy packet_generator lan gateway 30 None
            answering_world).2
       = Some ((fun datagram =>
                  (encode toy (construct toy _M_SEARCH datagram),
                   (gateway, 1900%Z)))
                 <$> concat (take (S k) (batches_of packet_generator))).
Proof.
  apply (viable_batch_ends_the_batch_phase toy
           [params wan_ppp; params wan_ip; params rootdevice;
            params "ssdp:all"] lan gateway 30 None answering_world
           [params wan_ppp; params wan_ip]
           (_fuzzy_m_search toy
              [params wan_ppp; params wan_ip; params rootdevice;
               params "ssdp:all"] lan gateway 30 None answering_world).2).
  - reflexivity.
  - vm_compute. reflexivity.
Defined.

Section Leak.

Context (codec : Codec).

Lemma m_search_closes_bound lan_address gateway_address datagram_args timeout
    ssdp_socket w :
  consistent w ->
  exists l,
    closes <$> endpoints
      (m_search codec lan_address gateway_address datagram_args timeout
         ssdp_socket w).2
    = (closes <$> endpoints w) ++ l
    /\ Forall (fun n => n = 1%nat) l.
Proof.
  intros Hc.
  destruct (m_search_consistent codec lan_address gateway_address datagram_args
              timeout ssdp_socket w Hc) as (_ & Hends).
  destruct (next_setup_fields w) as (_ & _ & He & _).
  destruct ((next_setup w).1) as [|err|err] eqn:Hsetup.
  - exists [1%nat]. split; [by apply m_search_closes_once|by repeat constructor].
  - exists []. split; [|constructor].
    unfold m_search, bind. rewrite listen_ssdp_exact, Hsetup. simpl.
    by rewrite He, app_nil_r.
  - exists [1%nat]. split; [|by repeat constructor].
    unfold m_search, bind. rewrite listen_ssdp_exact, Hsetup. simpl.
    by rewrite fmap_app.
Qed.

Lemma try_each_closes lan_address gateway_address args_to_try w :
  consistent w ->
  exists l,
    closes <$> endpoints
      (try_each codec lan_address gateway_address args_to_try w).2
    = (closes <$> endpoints w) ++ l
    /\ Forall (fun n => n = 1%nat) l.
Proof.
  revert w. induction args_to_try as [|args rest IH]; intros w Hc; simpl.
  - exists []. split; [by rewrite app_nil_r|constructor].
  - unfold try_except, bind.
    destruct (m_search_closes_bound lan_address gateway_address args 3 None w
                Hc) as (l1 & Hl1 & Hall1).
    destruct (m_search_consistent codec lan_address gateway_address args 3
                None w Hc) as (Hc1 & _).
    destruct (m_search codec lan_address gateway_address args 3 None w)
      as [[packet|e|] w1]; simpl in *; [by exists l1| |by exists l1].
    assert (Hnext :
      exists l,
        closes <$> endpoints
          (try_each codec lan_address gateway_address rest w1).2
        = (closes <$> endpoints w) ++ l
        /\ Forall (fun n => n = 1%nat) l).
    { destruct (IH w1 Hc1) as (l2 & Hl2 & Hall2). exists (l1 ++ l2).
      split; [by rewrite Hl2, Hl1, app_assoc|by apply Forall_app]. }
    destruct e; simpl; try (by exists l1); exact Hnext.
Qed.

End Leak.

(** X19.  Whenever set-up for the batch phase succeeds, [fuzzy_m_search]
    leaves exactly one of the transports it bound open when it ends, the one
    of the batch phase; every transport bound by the single searches of the
    disambiguation phase has been closed exactly once, and the transports
    that existed before are untouched. *)
Theorem fuzzy_m_search_leaves_one_transport_open
    (codec : Codec) (packet_generator : list OrderedDict)
    (lan_address gateway_address : string) (timeout : Q)
    (ssdp_socket : option nat) (w : World) :
  consistent w -> (next_setup w).1 = SetupOk ->
  exists l,
    closes <$> endpoints
      (fuzzy_m_search codec packet_generator lan_address gateway_address
         timeout ssdp_socket w).2
    = (closes <$> endpoints w) ++ [0%nat] ++ l
    /\ Forall (fun n => n = 1%nat) l.
Proof.
  intros Hc Hsetup.
  pose proof (_fuzzy_m_search_never_closes codec packet_generator lan_address
                gateway_address timeout ssdp_socket w Hsetup) as Hcl.
  destruct (_fuzzy_m_search_consistent codec packet_generator lan_address
              gateway_address timeout ssdp_socket w Hc) as (Hc1 & _).
  unfold fuzzy_m_search, bind.
  destruct (_fuzzy_m_search codec packet_generator lan_address gateway_address
              timeout ssdp_socket w) as [[batch|e|] w1]; simpl in *.
  - destruct (try_each_closes codec lan_address gateway_address batch w1 Hc1)
      as (l & Hl & Hall).
    exists l. split; [|done]. by rewrite Hl, Hcl, <- app_assoc.
  - exists []. split; [done|constructor].
  - exists []. split; [done|constructor].
Qed.

Lemma fuzzy_m_search_leaves_one_transport_open_witness :
  exists l,
    closes <$> endpoints
      (fuzzy_m_search toy two_candidates lan gateway 30 None
         answering_world).2
    = [] ++ [0%nat] ++ l
    /\ Forall (fun n => n = 1%nat) l.
Proof.
  apply (fuzzy_m_search_leaves_one_transport_open toy two_candidates lan
           gateway 30 None answering_world).
  - apply fresh_loop_consistent.
  - reflexivity.
Defined.
